(** * m3api core: a shallow embedding of the request engine

    The development follows core.js: the parameter normalizer
    ([transformParams] and its helpers), the response classifier
    ([responseErrors], [responseWarnings]), the token cache ([getToken]),
    the dispatch engine ([request], [internalRequest]) and the continuation
    driver ([requestAndContinue]).

    Conventions of the embedding:
    - a JavaScript object used as a parameter mapping is a [gmap] keyed by
      strings; an object whose entry order is observed ([Object.entries]) is
      an association list;
    - numbers are integers ([Z]) where the code stringifies or parses them,
      and rationals ([Q]) where the code does clock arithmetic;
    - the response envelope is typed as the JSDoc of the source declares it
      (errors and warnings are objects, [continue] is an object);
    - asynchronous code is run as one sequential task over an explicit
      world (session fields, clock, trace of effects); recursion through
      retries and continuation is bounded by fuel. *)

From Stdlib Require Import ZArith QArith Qminmax String Ascii List Bool Lia.
From stdpp Require Import base option list strings pretty gmap fin_maps.

Local Open Scope string_scope.
Local Open Scope Z_scope.

Set Warnings "-register-all".

(** ** JavaScript values *)

(** Decoded JSON, as the transport hands it over. *)
Inductive JSON :=
| JNull
| JBool (b : bool)
| JNum (n : Z)
| JStr (s : string)
| JArr (l : list JSON)
| JObj (o : list (string * JSON)).

(** A JSON object, in [Object.entries] order. *)
Abbreviation Obj := (list (string * JSON)).

Fixpoint obj_get (o : Obj) (k : string) : option JSON :=
  match o with
  | [] => None
  | (k', v) :: o' => if String.eqb k k' then Some v else obj_get o' k
  end.

(** [o[k] = v]: an existing key keeps its place, a new key goes last. *)
Fixpoint obj_set (o : Obj) (k : string) (v : JSON) : Obj :=
  match o with
  | [] => [(k, v)]
  | (k', v') :: o' =>
      if String.eqb k k' then (k', v) :: o' else (k', v') :: obj_set o' k v
  end.

(** An element of an array or set parameter: [(string|number)[]]. *)
Inductive Scalar :=
| SStr (s : string)
| SNum (n : Z).

(** A parameter value: string, number, array or set thereof, boolean, null
    or undefined; [PTokenPlaceholder] is the module-private symbol
    [TOKEN_PLACEHOLDER]. A set is given by its elements in iteration order. *)
Inductive ParamValue :=
| PStr (s : string)
| PNum (n : Z)
| PBool (b : bool)
| PNull
| PUndefined
| PArray (l : list Scalar)
| PSet (l : list Scalar)
| PTokenPlaceholder.

#[global] Instance Scalar_eq_dec : EqDecision Scalar.
Proof. solve_decision. Defined.

#[global] Instance ParamValue_eq_dec : EqDecision ParamValue.
Proof. solve_decision. Defined.

Abbreviation Params := (gmap string ParamValue).

(** [{ ...a, ...b }]: the entries of [b] win. *)
Definition spread (a b : Params) : Params := b ∪ a.

(** ** Strings *)

(** The separators of multi-valued parameters. *)
Definition PIPE : string := "|".
Definition UNIT_SEPARATOR_CHAR : ascii := ascii_of_nat 31.
Definition UNIT_SEPARATOR : string := String UNIT_SEPARATOR_CHAR "".

(** [String.prototype.includes]. *)
Fixpoint includes (s needle : string) : bool :=
  String.prefix needle s ||
  match s with
  | "" => false
  | String _ s' => includes s' needle
  end.

(** [String( n )] of an integer. *)
Definition String_of_number (n : Z) : string := pretty n.

(** The string form of an array element ([ToString]). *)
Definition ToString (e : Scalar) : string :=
  match e with
  | SStr s => s
  | SNum n => String_of_number n
  end.

(** [Array.prototype.join] over the elements' string forms. *)
Fixpoint join_strings (sep : string) (l : list string) : string :=
  match l with
  | [] => ""
  | [s] => s
  | s :: l' => s +:+ sep +:+ join_strings sep l'
  end.

Definition join (sep : string) (value : list Scalar) : string :=
  join_strings sep (map ToString value).

(** ** Parameter normalizer *)

Definition transformParamArray (value : list Scalar) : string :=
  if existsb (fun element => includes (ToString element) PIPE) value
  then UNIT_SEPARATOR +:+ join UNIT_SEPARATOR value
  else join PIPE value.

(** Returns [PUndefined] for the values that are dropped, a string for
    string, number and [true], and any other value unmodified. *)
Definition transformParamScalar (value : ParamValue) : ParamValue :=
  match value with
  | PNum n => PStr (String_of_number n)
  | PBool true => PStr ""
  | PBool false | PNull | PUndefined => PUndefined
  | _ => value
  end.

Definition transformParamValue (value : ParamValue) : ParamValue :=
  match value with
  | PSet l | PArray l => PStr (transformParamArray l)
  | _ => transformParamScalar value
  end.

(** The loop over [Object.entries( params )] keeps an entry exactly when its
    transformed value is not [undefined]. *)
Definition transformParams (params : Params) : Params :=
  omap (fun value =>
          let transformedParamValue := transformParamValue value in
          if decide (transformedParamValue = PUndefined) then None
          else Some transformedParamValue) params.

(** [splitPostParameters]: only [action] and [origin] travel on the URL. *)
Definition is_url_param (key : string) : bool :=
  String.eqb key "action" || String.eqb key "origin".

Definition splitPostParameters (params : Params) : Params * Params :=
  (filter (fun kv => is_url_param kv.1 = true) params,
   filter (fun kv => is_url_param kv.1 = false) params).

(** ** Response envelope *)

(** [response.warnings]: an array of warning objects, or (formatversion 1)
    an object mapping module names to warning objects. *)
Inductive Warnings :=
| WarningsArray (l : list Obj)
| WarningsObject (m : list (string * Obj)).

(** The decoded body: the members the engine reads, and the rest. *)
Record Body := mkBody {
  error : option Obj;
  errors : option (list Obj);
  warnings : option Warnings;
  continue : option Params;
  query : option JSON;
  members : Obj;
}.

Record Response := mkResponse {
  status : Z;
  headers : gmap string string;
  body : Body;
}.

(** What a rejected promise or a [throw] carries. *)
Inductive Error :=
| UnknownRequestMethod (method : string)
| Non200Status (status : Z)
| ApiErrors (errors : list Obj)
| TypeError
| TransportError (message : string).

(** What a warn handler is called with. *)
Inductive Warning :=
| ApiWarnings (warnings : list Obj)
| DefaultUserAgentWarning
| MaxRetriesWarning.

(** ** Response classifier *)

Definition responseErrors (response : Body) : list Obj :=
  match error response with
  | Some e => [e]
  | None =>
      match errors response with
      | Some l => l
      | None => []
      end
  end.

(** [errors.some( ( { code } ) => code === c )]. *)
Definition has_code (c : string) (e : Obj) : bool :=
  match obj_get e "code" with
  | Some (JStr s) => String.eqb s c
  | _ => false
  end.

Definition some_code (c : string) (errors : list Obj) : bool :=
  existsb (has_code c) errors.

(** [warning.module = module], and the loop that does it for each entry and
    collects the warnings. *)
Definition tag_module (entry : string * Obj) : Obj :=
  obj_set entry.2 "module" (JStr entry.1).

Definition tag_modules (bcWarnings : list (string * Obj)) : list Obj :=
  map tag_module bcWarnings.

(** [bcWarnings[ 0 ][ 0 ]] of an empty entry list is a [TypeError]. *)
Definition responseWarnings (response : Body) : Error + list Obj :=
  match warnings response with
  | None => inr []
  | Some (WarningsArray l) => inr l
  | Some (WarningsObject m) =>
      match m with
      | [] => inl TypeError
      | first :: rest =>
          let bcWarnings :=
            if String.eqb first.1 "main" then (rest ++ [first])%list else m in
          inr (tag_modules bcWarnings)
      end
  end.

(** The warning objects are tagged in place, so the body that is returned
    carries the module names too. *)
Definition tagged_body (response : Body) : Body :=
  match warnings response with
  | Some (WarningsObject m) =>
      mkBody (error response) (errors response)
        (Some (WarningsObject (map (fun entry => (entry.1, tag_module entry)) m)))
        (continue response) (query response) (members response)
  | _ => response
  end.

(** *** Truncated-result warnings *)

Definition truthy (v : option JSON) : bool :=
  match v with
  | None | Some JNull => false
  | Some (JBool b) => b
  | Some (JNum n) => negb (n =? 0)
  | Some (JStr s) => negb (String.eqb s "")
  | Some (JArr _) | Some (JObj _) => true
  end.

Fixpoint JSON_toString (v : JSON) : string :=
  match v with
  | JNull => "null"
  | JBool true => "true"
  | JBool false => "false"
  | JNum n => String_of_number n
  | JStr s => s
  | JArr l =>
      join_strings ","
        (map (fun e => match e with JNull => "" | _ => JSON_toString e end) l)
  | JObj _ => "[object Object]"
  end.

Definition value_toString (v : option JSON) : string :=
  match v with
  | None => "undefined"
  | Some j => JSON_toString j
  end.

Fixpoint ends_with (s suffix : string) : bool :=
  String.eqb s suffix ||
  match s with
  | "" => false
  | String _ s' => ends_with s' suffix
  end.

Fixpoint no_line_terminator (s : string) : bool :=
  match s with
  | "" => true
  | String c s' =>
      negb (Ascii.eqb c (ascii_of_nat 10)) && negb (Ascii.eqb c (ascii_of_nat 13))
      && no_line_terminator s'
  end.

Definition drop_prefix (p s : string) : option string :=
  if String.prefix p s
  then Some (String.substring (String.length p) (String.length s - String.length p) s)
  else None.

(** [TRUNCATED_RESULT.test( s )]: one or two spaces after "otherwise", any
    run without line terminators before the final " bytes". *)
Definition TRUNCATED_RESULT_test (s : string) : bool :=
  let tail_ok rest :=
    match rest with
    | Some r => ends_with r " bytes" && no_line_terminator r
    | None => false
    end in
  tail_ok (drop_prefix
    "This result was truncated because it would otherwise be larger than the limit of " s)
  || tail_ok (drop_prefix
    "This result was truncated because it would otherwise  be larger than the limit of " s).

Definition notTruncatedResultWarning (warning : Obj) : bool :=
  if truthy (obj_get warning "code")
  then
    match obj_get warning "code" with
    | Some (JStr s) => negb (String.eqb s "truncatedresult")
    | _ => true
    end
  else
    negb (TRUNCATED_RESULT_test
            (value_toString
               (if truthy (obj_get warning "warnings")
                then obj_get warning "warnings"
                else obj_get warning "*"))).

(** ** [parseInt] *)

Definition is_white_space (c : ascii) : bool :=
  let n := nat_of_ascii c in
  ((9 <=? n)%nat && (n <=? 13)%nat) || (n =? 32)%nat.

Fixpoint trim_start (s : string) : string :=
  match s with
  | String c s' => if is_white_space c then trim_start s' else s
  | "" => ""
  end.

Definition digit_value (radix : Z) (c : ascii) : option Z :=
  let n := Z.of_nat (nat_of_ascii c) in
  let d :=
    if (48 <=? n) && (n <=? 57) then Some (n - 48)
    else if (97 <=? n) && (n <=? 102) then Some (n - 87)
    else if (65 <=? n) && (n <=? 70) then Some (n - 55)
    else None in
  match d with
  | Some v => if v <? radix then Some v else None
  | None => None
  end.

(** The longest run of digits; [None] when there is no digit at all. *)
Fixpoint parse_digits (radix : Z) (s : string) (acc : option Z) : option Z :=
  match s with
  | "" => acc
  | String c s' =>
      match digit_value radix c with
      | Some d => parse_digits radix s' (Some (radix * default 0 acc + d))
      | None => acc
      end
  end.

(** [parseInt( s )] without a radix; [None] is [NaN]. *)
Definition parseInt (s : string) : option Z :=
  let s := trim_start s in
  let '(sign, s) :=
    match s with
    | String "-" s' => (-1, s')
    | String "+" s' => (1, s')
    | _ => (1, s)
    end in
  let '(radix, s) :=
    match s with
    | String "0" (String "x" s') | String "0" (String "X" s') => (16, s')
    | _ => (10, s)
    end in
  (fun n => sign * n) <$> parse_digits radix s None.

(** ** Options *)

(** A warn handler: [console.warn], a handler of the caller, or a handler
    decorated by [makeWarnDroppingTruncatedResultWarning]. *)
Inductive WarnHandler :=
| console_warn
| caller_warn (id : nat)
| makeWarnDroppingTruncatedResultWarning (warn : WarnHandler).

(** An options object as a caller writes it: any member may be missing. *)
Record Options := mkOptions {
  o_method : option string;
  o_tokenType : option (option string);
  o_tokenName : option string;
  o_maxRetries : option Q;
  o_maxRetriesSeconds : option Q;
  o_retryAfterMaxlagSeconds : option Q;
  o_retryAfterReadonlySeconds : option Q;
  o_userAgent : option string;
  o_warn : option WarnHandler;
  o_dropTruncatedResultWarning : option bool;
}.

Definition no_options : Options :=
  mkOptions None None None None None None None None None None.

(** [{ ...a, ...b }] on options objects. *)
Definition spread_options (a b : Options) : Options :=
  let pick {A} (f : Options → option A) :=
    match f b with Some v => Some v | None => f a end in
  mkOptions (pick o_method) (pick o_tokenType) (pick o_tokenName)
    (pick o_maxRetries) (pick o_maxRetriesSeconds)
    (pick o_retryAfterMaxlagSeconds) (pick o_retryAfterReadonlySeconds)
    (pick o_userAgent) (pick o_warn) (pick o_dropTruncatedResultWarning).

(** The options of one request after composition: the members that
    [DEFAULT_OPTIONS] defines always have a value. *)
Record RequestOptions := mkRequestOptions {
  method : string;
  tokenType : option string;
  tokenName : string;
  maxRetries : option Q;
  maxRetriesSeconds : Q;
  retryAfterMaxlagSeconds : Q;
  retryAfterReadonlySeconds : Q;
  userAgent : option string;
  warn : WarnHandler;
  dropTruncatedResultWarning : bool;
}.

Definition DEFAULT_OPTIONS : RequestOptions :=
  mkRequestOptions "GET" None "token" None (65 # 1)%Q (5 # 1)%Q (30 # 1)%Q
    None console_warn false.

(** [{ ...base, ...o }] where [base] already has every default. *)
Definition override (base : RequestOptions) (o : Options) : RequestOptions :=
  mkRequestOptions
    (default (method base) (o_method o))
    (default (tokenType base) (o_tokenType o))
    (default (tokenName base) (o_tokenName o))
    (match o_maxRetries o with Some v => Some v | None => maxRetries base end)
    (default (maxRetriesSeconds base) (o_maxRetriesSeconds o))
    (default (retryAfterMaxlagSeconds base) (o_retryAfterMaxlagSeconds o))
    (default (retryAfterReadonlySeconds base) (o_retryAfterReadonlySeconds o))
    (match o_userAgent o with Some v => Some v | None => userAgent base end)
    (default (warn base) (o_warn o))
    (default (dropTruncatedResultWarning base) (o_dropTruncatedResultWarning o)).

Definition DEFAULT_USER_AGENT : string :=
  "m3api/0.6.1 (https://www.npmjs.com/package/m3api)".

(** ** The world of a session *)

Inductive TransportCall :=
| internalGet (params : Params) (userAgent : string)
| internalPost (urlParams bodyParams : Params) (userAgent : string).

(** What is observable of a run, in order of occurrence. *)
Inductive Event :=
| Transport (call : TransportCall)
| Warned (handler : WarnHandler) (warning : Warning)
| Timeout (millis : Q)
| TokenSet (type token : string)
| TokensCleared.

(** The outcome of one transport call: the time it took, and the response
    or the error the promise was rejected with. *)
Inductive TransportResult :=
| Responded (elapsedMillis : Q) (response : Response)
| Rejected (elapsedMillis : Q) (message : string).

Record World := mkWorld {
  apiUrl : string;
  defaultParams : Params;
  defaultOptions : Options;
  tokens : gmap string string;
  warnedDefaultUserAgent : bool;
  now : Q;
  trace : list Event;
}.

(** [new Session( apiUrl, defaultParams, defaultOptions )], created at time
    [now]. *)
Definition Session (apiUrl : string) (defaultParams : Params)
    (defaultOptions : Options) (now : Q) : World :=
  mkWorld
    (if includes apiUrl "/" then apiUrl
     else "https://" +:+ apiUrl +:+ "/w/api.php")
    defaultParams defaultOptions ∅ false now [].

Definition record (e : Event) (w : World) : World :=
  mkWorld (apiUrl w) (defaultParams w) (defaultOptions w) (tokens w)
    (warnedDefaultUserAgent w) (now w) (trace w ++ [e])%list.

Definition advance (millis : Q) (w : World) : World :=
  mkWorld (apiUrl w) (defaultParams w) (defaultOptions w) (tokens w)
    (warnedDefaultUserAgent w) (now w + millis)%Q (trace w).

Definition with_tokens (t : gmap string string) (w : World) : World :=
  mkWorld (apiUrl w) (defaultParams w) (defaultOptions w) t
    (warnedDefaultUserAgent w) (now w) (trace w).

Definition with_warnedDefaultUserAgent (b : bool) (w : World) : World :=
  mkWorld (apiUrl w) (defaultParams w) (defaultOptions w) (tokens w)
    b (now w) (trace w).

(** [this.tokens.set( type, token )] and [this.tokens.clear()]. *)
Definition tokens_set (type token : string) (w : World) : World :=
  record (TokenSet type token) (with_tokens (<[type := token]> (tokens w)) w).

Definition tokens_clear (w : World) : World :=
  record TokensCleared (with_tokens ∅ w).

(** [setTimeout( resolve, millis )]: a negative delay fires at once. *)
Definition setTimeout (millis : Q) (w : World) : World :=
  record (Timeout millis) (advance (Qmax 0 millis) w).

(** Calling a warn handler. The decorated handler drops truncated-result
    warnings and calls the original one only when something is left. *)
Fixpoint call_warn (warn : WarnHandler) (error : Warning) (w : World) : World :=
  match warn with
  | makeWarnDroppingTruncatedResultWarning warn' =>
      match error with
      | ApiWarnings ws =>
          let warnings := List.filter notTruncatedResultWarning ws in
          if (0 <? length warnings)%nat
          then call_warn warn'
                 (if (length warnings =? length ws)%nat
                  then error else ApiWarnings warnings) w
          else w
      | _ => call_warn warn' error w
      end
  | _ => record (Warned warn error) w
  end.

(** ** A monad for the asynchronous methods *)

Inductive Outcome (A : Type) :=
| Returned (a : A) (w : World)
| Thrown (e : Error) (w : World)
| OutOfFuel.

Arguments Returned {A} a w.
Arguments Thrown {A} e w.
Arguments OutOfFuel {A}.

Definition Async (A : Type) : Type := World → Outcome A.

#[global] Instance Async_ret : MRet Async := fun A a w => Returned a w.

#[global] Instance Async_bind : MBind Async := fun A B k m w =>
  match m w with
  | Returned a w' => k a w'
  | Thrown e w' => Thrown e w'
  | OutOfFuel => OutOfFuel
  end.

Definition throw {A} (e : Error) : Async A := fun w => Thrown e w.

Definition out_of_fuel {A} : Async A := fun _ => OutOfFuel.

(** A synchronous side effect, and a read of the world. *)
Definition effect (f : World → World) : Async unit :=
  fun w => Returned tt (f w).

Definition read {A} (f : World → A) : Async A :=
  fun w => Returned (f w) w.

(** ** The engine *)

(** [response.query.tokens[ type + 'token' ]] inside [try]: reading a member
    of [undefined] or [null] throws and is caught; [Some] only for a string.
    (A string or an array has no member named [tokens] or ending in
    [token].) *)
Definition member (v : option JSON) (k : string) : Error + option JSON :=
  match v with
  | None | Some JNull => inl TypeError
  | Some (JObj o) => inr (obj_get o k)
  | Some _ => inr None
  end.

Definition response_token (type : string) (response : Body) : option string :=
  match member (query response) "tokens" with
  | inl _ => None
  | inr tokens =>
      match member tokens (type +:+ "token") with
      | inr (Some (JStr token)) => Some token
      | _ => None
      end
  end.

(** One turn of the [do ... while] loop of [requestAndContinue]: the request
    with the current continuation parameters, the response that is yielded
    and the continuation parameters of the next turn ([None]: the loop
    ends). *)
Definition requestAndContinue_turn
    (request : Params → Options → Async Body)
    (params : Params) (options : Options) (continueParams : Params)
    : Async (Body * option Params) :=
  response ← request (spread params continueParams) options;
  mret (response, continue response).

Section Engine.

(** The transport of the session's subclass: its answer may depend on
    everything that happened before the call. *)
Variable transport : list Event → TransportCall → TransportResult.

Definition await_transport (call : TransportCall) : Async Response :=
  fun w =>
    match transport (trace w) call with
    | Responded elapsed response =>
        Returned response (advance elapsed (record (Transport call) w))
    | Rejected elapsed message =>
        Thrown (TransportError message)
          (advance elapsed (record (Transport call) w))
    end.

(** The closure [retryIfBefore] of [internalRequest]: the retry after a
    timeout, or [None] for [null]. A [NaN] delay never compares. *)
Definition retryIfBefore (retryUntil : Q) (again : Async Body)
    (retryAfterSeconds : option Q) (w : World) : option (Async Body) :=
  match retryAfterSeconds with
  | Some seconds =>
      let retryAfterMillis := (1000 * seconds)%Q in
      if Qle_bool (now w + retryAfterMillis) retryUntil
      then Some (effect (setTimeout retryAfterMillis) ;; again)
      else None
  | None => None
  end.

(** The end of [internalRequest]: remaining errors are thrown together,
    warnings go to the warn handler and the body is the result. *)
Definition conclude (warn : WarnHandler) (body : Body) : Async Body :=
  let errors := responseErrors body in
  if (0 <? length errors)%nat
  then throw (ApiErrors errors)
  else
    match responseWarnings body with
    | inl e => throw e
    | inr warnings =>
        (if (0 <? length warnings)%nat
         then effect (call_warn warn (ApiWarnings warnings))
         else mret tt) ;;
        mret (tagged_body body)
    end.

(** The part of [internalRequest] after [await result]: status check,
    retries in their order, errors, warnings. [usedToken] is
    [tokenParams !== null]; [again] is the recursive call with the
    arguments of this call. *)
Definition evaluate (warn : WarnHandler)
    (retryUntil retryAfterMaxlagSeconds retryAfterReadonlySeconds : Q)
    (usedToken : bool) (again : Async Body) (response : Response)
    : Async Body :=
  if negb (status response =? 200)
  then throw (Non200Status (status response))
  else
    let retryIfBefore := retryIfBefore retryUntil again in
    let hasRetryAfterHeader :=
      bool_decide (is_Some (headers response !! "retry-after")) in
    retryPromise ← (if hasRetryAfterHeader
                    then read (retryIfBefore
                                 (inject_Z <$>
                                    (headers response !! "retry-after" ≫= parseInt)))
                    else mret None);
    match retryPromise with
    | Some retry => retry
    | None =>
    let errors := responseErrors (body response) in
    retryPromise ← (if negb hasRetryAfterHeader && some_code "maxlag" errors
                    then read (retryIfBefore (Some retryAfterMaxlagSeconds))
                    else mret None);
    match retryPromise with
    | Some retry => retry
    | None =>
    retryPromise ← (if negb hasRetryAfterHeader && some_code "readonly" errors
                    then read (retryIfBefore (Some retryAfterReadonlySeconds))
                    else mret None);
    match retryPromise with
    | Some retry => retry
    | None =>
    retryPromise ← (if usedToken && some_code "badtoken" errors
                    then effect tokens_clear ;;
                         read (retryIfBefore (Some 0%Q))
                    else mret None);
    match retryPromise with
    | Some retry => retry
    | None => conclude warn (body response)
    end end end end.

(** The first half of [request], up to the call of [internalRequest]. *)
Definition composeOptions (options : Options) (w : World) : RequestOptions :=
  override (override DEFAULT_OPTIONS (defaultOptions w)) options.

Definition warnMaxRetries (options : Options) (o : RequestOptions)
    : Async unit :=
  defaults ← read defaultOptions;
  if bool_decide (is_Some (maxRetries o))
     && negb (bool_decide (is_Some
          (o_maxRetriesSeconds (spread_options defaults options))))
  then effect (call_warn (warn o) MaxRetriesWarning)
  else mret tt.

(** A user agent that is missing or the empty string is falsy. *)
Definition given_userAgent (o : RequestOptions) : option string :=
  match userAgent o with
  | Some "" | None => None
  | Some ua => Some ua
  end.

Definition fullUserAgent (o : RequestOptions) : Async string :=
  match given_userAgent o with
  | Some userAgent => mret (userAgent +:+ " " +:+ DEFAULT_USER_AGENT)
  | None =>
      warned ← read warnedDefaultUserAgent;
      (if negb warned
       then effect (call_warn (warn o) DefaultUserAgentWarning) ;;
            effect (with_warnedDefaultUserAgent true)
       else mret tt) ;;
      mret DEFAULT_USER_AGENT
  end.

Definition actualWarn (o : RequestOptions) : WarnHandler :=
  if dropTruncatedResultWarning o
  then makeWarnDroppingTruncatedResultWarning (warn o)
  else warn o.

Definition tokenParams (o : RequestOptions) : Params :=
  match tokenType o with
  | Some _ => {[ tokenName o := PTokenPlaceholder ]}
  | None => ∅
  end.

Definition requestParams (o : RequestOptions) (params : Params) (w : World)
    : Params :=
  transformParams
    (<["format" := PStr "json"]>
       (spread (spread (defaultParams w) (tokenParams o)) params)).

(** The options and parameters of the token request of [getToken]. *)
Definition tokenRequestOptions (options : Options) : Options :=
  spread_options options
    (mkOptions (Some "GET") (Some None) None None None None None None None
       (Some true)).

Definition tokenRequestParams (type : string) : Params :=
  {[ "action" := PStr "query";
     "meta" := PSet [SStr "tokens"];
     "type" := PSet [SStr type] ]}.

Definition token_value (token : option string) : ParamValue :=
  match token with
  | Some t => PStr t
  | None => PUndefined
  end.

(** The start of [internalRequest]: a placeholder under [tokenName] is
    resolved by [getToken], whose retries may last until [retryUntil];
    [None] is [tokenParams === null]. *)
Definition resolveToken (getToken : string → Options → Async (option string))
    (params : Params) (userAgent : string) (warn : WarnHandler)
    (tokenType : option string) (tokenName : string)
    (retryUntil retryAfterMaxlagSeconds retryAfterReadonlySeconds : Q)
    : Async (option Params) :=
  if decide (params !! tokenName = Some PTokenPlaceholder)
  then
    match tokenType with
    | Some type =>
        t ← read now;
        token ← getToken type
          (mkOptions None None None None
             (Some ((retryUntil - t) / 1000)%Q)
             (Some retryAfterMaxlagSeconds)
             (Some retryAfterReadonlySeconds)
             (Some userAgent) (Some warn) None);
        mret (Some ({[ tokenName := token_value token ]} : Params))
    | None =>
        (* [getToken( null )] fails when its request parameters are
           transformed *)
        throw TypeError
    end
  else mret None.

(** The transport call of a method; [None] for an unknown method. *)
Definition transportCall (method : string) (params : Params)
    (userAgent : string) : option TransportCall :=
  if String.eqb method "GET"
  then Some (internalGet params userAgent)
  else if String.eqb method "POST"
  then
    let '(urlParams, bodyParams) := splitPostParameters params in
    Some (internalPost urlParams bodyParams userAgent)
  else None.

Definition send (method : string) (params : Params) (userAgent : string)
    : Async Response :=
  match transportCall method params userAgent with
  | Some call => await_transport call
  | None => throw (UnknownRequestMethod method)
  end.

(** The [for await] loop of [getToken] over [requestAndContinue]: it
    stores the first token that a response carries and leaves the loop. *)
Fixpoint getToken_pages (request : Params → Options → Async Body)
    (turns : nat) (type : string) (params : Params) (options : Options)
    (continueParams : Params) {struct turns} : Async unit :=
  match turns with
  | O => out_of_fuel
  | S turns' =>
      '(response, next) ←
        requestAndContinue_turn request params options continueParams;
      match response_token type response with
      | Some token => effect (tokens_set type token)
      | None =>
          match next with
          | Some continueParams' =>
              getToken_pages request turns' type params options
                continueParams'
          | None => mret tt
          end
      end
  end.

(** [request], [internalRequest] and [getToken] call each other. *)
Fixpoint request (fuel : nat) (params : Params) (options : Options)
    {struct fuel} : Async Body :=
  match fuel with
  | O => out_of_fuel
  | S fuel' =>
      o ← read (composeOptions options);
      warnMaxRetries options o ;;
      userAgent ← fullUserAgent o;
      t ← read now;
      let retryUntil := (t + maxRetriesSeconds o * 1000)%Q in
      transformed ← read (requestParams o params);
      internalRequest fuel' (method o) transformed userAgent (actualWarn o)
        (tokenType o) (tokenName o) retryUntil
        (retryAfterMaxlagSeconds o) (retryAfterReadonlySeconds o)
  end
with internalRequest (fuel : nat) (method : string) (params : Params)
    (userAgent : string) (warn : WarnHandler) (tokenType : option string)
    (tokenName : string)
    (retryUntil retryAfterMaxlagSeconds retryAfterReadonlySeconds : Q)
    {struct fuel} : Async Body :=
  match fuel with
  | O => out_of_fuel
  | S fuel' =>
      tokenParams ←
        resolveToken (getToken fuel') params userAgent warn tokenType
          tokenName retryUntil retryAfterMaxlagSeconds
          retryAfterReadonlySeconds;
      response ←
        send method (spread params (default ∅ tokenParams)) userAgent;
      evaluate warn retryUntil retryAfterMaxlagSeconds
        retryAfterReadonlySeconds
        (bool_decide (is_Some tokenParams))
        (internalRequest fuel' method params userAgent warn tokenType
           tokenName retryUntil retryAfterMaxlagSeconds
           retryAfterReadonlySeconds)
        response
  end
with getToken (fuel : nat) (type : string) (options : Options)
    {struct fuel} : Async (option string) :=
  match fuel with
  | O => out_of_fuel
  | S fuel' =>
      cached ← read (fun w => tokens w !! type);
      (match cached with
       | Some _ => mret tt
       | None =>
           getToken_pages (request fuel') fuel' type
             (tokenRequestParams type) (tokenRequestOptions options)
             {[ "continue" := PUndefined ]}
       end) ;;
      read (fun w => tokens w !! type)
  end.

(** [requestAndContinue], run by a consumer that takes every response:
    the list of the responses yielded. *)
Fixpoint requestAndContinue_from (fuel turns : nat) (params : Params)
    (options : Options) (continueParams : Params)
    {struct turns} : Async (list Body) :=
  match turns with
  | O => out_of_fuel
  | S turns' =>
      '(response, next) ←
        requestAndContinue_turn (request fuel) params options continueParams;
      match next with
      | Some continueParams' =>
          rest ← requestAndContinue_from fuel turns' params options
                   continueParams';
          mret (response :: rest)
      | None => mret [response]
      end
  end.

Definition requestAndContinue (fuel : nat) (params : Params)
    (options : Options) : Async (list Body) :=
  requestAndContinue_from fuel fuel params options
    {[ "continue" := PUndefined ]}.

End Engine.

(** ** The request combiner *)

Module Combiner.

(** Modelled from the spec: combine.js ([mixCombiningSessionInto]) is not
    among the sources, only its tests are. A request that is issued
    normalizes its parameters; a GET request joins the first pending
    request it is compatible with, or becomes a new pending request;
    when control returns to the scheduler every pending request is sent
    as one transport call and its outcome goes to every waiting caller.
    Requests with another method bypass the combiner. *)
Record Request := mkRequest {
  caller : nat;
  request_method : string;
  request_params : Params;
}.

(** Modelled from the spec: a pending (not yet dispatched) request holds
    the normalized parameters and the callers that wait for it. *)
Record Pending := mkPending {
  pending_params : Params;
  waiters : list nat;
}.

(** Modelled from the spec: two parameter sets are compatible when every
    parameter present in both has the same normalized value. *)
Definition compatible (p q : Params) : bool := bool_decide (map_agree p q).

(** Modelled from the spec: compatible requests share one record with the
    union of the parameters and all the waiting callers. *)
Fixpoint enqueue (who : nat) (normalized : Params) (pending : list Pending)
    : list Pending :=
  match pending with
  | [] => [mkPending normalized [who]]
  | p :: rest =>
      if compatible (pending_params p) normalized
      then mkPending (pending_params p ∪ normalized) (waiters p ++ [who])%list
             :: rest
      else p :: enqueue who normalized rest
  end.

(** Modelled from the spec: the requests of one scheduling turn, in the
    order they are issued: the pending GET requests, and the calls that
    bypass the combiner. *)
Fixpoint issue (requests : list Request)
    (pending : list Pending) (direct : list (nat * TransportCall))
    (userAgent : string) : list Pending * list (nat * TransportCall) :=
  match requests with
  | [] => (pending, direct)
  | r :: rest =>
      let normalized := transformParams (request_params r) in
      if String.eqb (request_method r) "GET"
      then issue rest (enqueue (caller r) normalized pending) direct userAgent
      else
        let '(urlParams, bodyParams) := splitPostParameters normalized in
        issue rest pending
          (direct ++ [(caller r, internalPost urlParams bodyParams userAgent)])%list
          userAgent
  end.

Section Dispatch.

(** What one physical call comes back with. *)
Variable perform : TransportCall → Error + Body.

Variable userAgent : string.

(** Modelled from the spec: the transport calls of a turn, one for each
    pending request and one for each bypassing request. *)
Definition calls (requests : list Request) : list TransportCall :=
  let '(pending, direct) := issue requests [] [] userAgent in
  (map (fun p => internalGet (pending_params p) userAgent) pending
     ++ map snd direct)%list.

(** Modelled from the spec: the outcome handed to each caller. *)
Definition deliveries (requests : list Request)
    : list (nat * (Error + Body)) :=
  let '(pending, direct) := issue requests [] [] userAgent in
  (concat
     (map (fun p =>
             let outcome := perform (internalGet (pending_params p) userAgent) in
             map (fun who => (who, outcome)) (waiters p))
        pending)
     ++ map (fun d => (d.1, perform d.2)) direct)%list.

End Dispatch.

End Combiner.

(** ** The rest of core.js *)

(** [responseBoolean]: [( value && '' ) === '']. *)
Definition responseBoolean (value : option JSON) : bool :=
  match (if truthy value then Some (JStr "") else value) with
  | Some (JStr s) => String.eqb s ""
  | _ => false
  end.

(** [new Set( elements )] keeps the first occurrence of each element, in
    order; a string and a number are never the same element. *)
Fixpoint Set_of (seen elements : list Scalar) : list Scalar :=
  match elements with
  | [] => []
  | e :: rest =>
      if bool_decide (e ∈ seen) then Set_of seen rest
      else e :: Set_of (e :: seen) rest
  end.

(** [set( ...elements )]. *)
Definition set (elements : list Scalar) : ParamValue :=
  PSet (Set_of [] elements).

(** [response.batchcomplete]. *)
Definition batchcomplete (response : Body) : option JSON :=
  obj_get (members response) "batchcomplete".

(** The loop of [requestAndContinueReducingBatch] over the responses of
    [requestAndContinue], run by a consumer that takes every value: the list
    of the accumulators yielded. [initial] is the value that the callback
    of that name produces; [reducer] is a function of the current value and
    the response. *)
Fixpoint reducingBatch_from {A : Type}
    (request : Params → Options → Async Body) (turns : nat)
    (params : Params) (options : Options) (reducer : A → Body → A)
    (initial accumulator : A) (continueParams : Params)
    {struct turns} : Async (list A) :=
  match turns with
  | O => out_of_fuel
  | S turns' =>
      '(response, next) ←
        requestAndContinue_turn request params options continueParams;
      let complete := responseBoolean (batchcomplete response) in
      let accumulator := reducer accumulator response in
      match next with
      | Some continueParams' =>
          rest ← reducingBatch_from request turns' params options reducer
                   initial (if complete then initial else accumulator)
                   continueParams';
          mret (if complete then accumulator :: rest else rest)
      | None => mret (if complete then [accumulator] else [])
      end
  end.

(** [{ dropTruncatedResultWarning: true, ...options }]. *)
Definition batchOptions (options : Options) : Options :=
  spread_options
    (mkOptions None None None None None None None None None (Some true))
    options.

Definition requestAndContinueReducingBatch {A : Type}
    (transport : list Event → TransportCall → TransportResult) (fuel : nat)
    (params : Params) (options : Options) (reducer : A → Body → A)
    (initial : A) : Async (list A) :=
  reducingBatch_from (request transport fuel) fuel params
    (batchOptions options) reducer initial initial
    {[ "continue" := PUndefined ]}.

(** What the batches of a list of responses reduce to: a response that
    completes a batch closes the current value and a new one begins. *)
Fixpoint reduce_batches {A : Type} (reducer : A → Body → A)
    (initial accumulator : A) (responses : list Body) : list A :=
  match responses with
  | [] => []
  | response :: rest =>
      let accumulator := reducer accumulator response in
      if responseBoolean (batchcomplete response)
      then accumulator :: reduce_batches reducer initial initial rest
      else reduce_batches reducer initial accumulator rest
  end.

(** ** Reading a multi-valued parameter back *)

(** [String.prototype.split] with a separator of one character, following
    the spec's "split on 0x1F". *)
Fixpoint split_on (sep : ascii) (s : string) : list string :=
  match s with
  | "" => [""]
  | String c s' =>
      if Ascii.eqb c sep then "" :: split_on sep s'
      else
        match split_on sep s' with
        | piece :: pieces => String c piece :: pieces
        | [] => [String c ""]
        end
  end.

Fixpoint has_char (c : ascii) (s : string) : bool :=
  match s with
  | "" => false
  | String c' s' => Ascii.eqb c' c || has_char c s'
  end.

(** ** Observations on a run *)

Definition is_transport (e : Event) : bool :=
  match e with
  | Transport _ => true
  | _ => false
  end.

Definition transport_calls (trace : list Event) : list TransportCall :=
  omap (fun e => match e with Transport c => Some c | _ => None end) trace.

Definition sent_params (call : TransportCall) : Params :=
  match call with
  | internalGet params _ => params
  | internalPost urlParams bodyParams _ => urlParams ∪ bodyParams
  end.

Definition sent_userAgent (call : TransportCall) : string :=
  match call with
  | internalGet _ userAgent | internalPost _ _ userAgent => userAgent
  end.

Definition is_DefaultUserAgentWarning (e : Event) : bool :=
  match e with
  | Warned _ DefaultUserAgentWarning => true
  | _ => false
  end.

Definition timeouts (trace : list Event) : list Q :=
  omap (fun e => match e with Timeout millis => Some millis | _ => None end)
    trace.

Definition cache_writes (trace : list Event) : list (string * string) :=
  omap (fun e => match e with TokenSet type token => Some (type, token) | _ => None end)
    trace.

Definition cache_clearings (trace : list Event) : nat :=
  length (List.filter (fun e => match e with TokensCleared => true | _ => false end)
            trace).

Definition touches_cache (e : Event) : bool :=
  match e with
  | TokenSet _ _ | TokensCleared => true
  | _ => false
  end.

Definition default_warnings (trace : list Event) : nat :=
  length (List.filter is_DefaultUserAgentWarning trace).

(** A property of the world in which a call ends, if it ends. *)
Definition after {A} (P : World → Prop) (o : Outcome A) : Prop :=
  match o with
  | Returned _ w | Thrown _ w => P w
  | OutOfFuel => True
  end.

(** Between [w] and [w'] the token cache was neither written nor cleared. *)
Definition same_cache (w w' : World) : Prop :=
  tokens w' = tokens w
  ∧ cache_writes (trace w') = cache_writes (trace w)
  ∧ cache_clearings (trace w') = cache_clearings (trace w).

(** The world moved on without a transport call, and the session's defaults
    and clock are as before. *)
Definition quiet (w w' : World) : Prop :=
  transport_calls (trace w') = transport_calls (trace w)
  ∧ defaultParams w' = defaultParams w
  ∧ defaultOptions w' = defaultOptions w
  ∧ now w' = now w.

(** Every transport call so far carried a User-Agent that ends with the
    library's own identifier. *)
Definition identified (w : World) : Prop :=
  Forall (fun call => ends_with (sent_userAgent call) DEFAULT_USER_AGENT = true)
    (transport_calls (trace w)).

(** The default User-Agent warning was given at most once, and not at all
    while the session's flag is unset. *)
Definition warned_once (w : World) : Prop :=
  (default_warnings (trace w) ≤ 1)%nat
  ∧ (warnedDefaultUserAgent w = false → default_warnings (trace w) = 0%nat).

(** The invariant of a session. *)
Definition session_inv (w : World) : Prop := identified w ∧ warned_once w.

(** No value is the token placeholder, which callers cannot write. *)
Definition plain (params : Params) : Prop :=
  ∀ key, params !! key ≠ Some PTokenPlaceholder.

(** The deadline leaves no room for a retry after a [retry-after] header,
    a [maxlag] error or a [readonly] error of this response. *)
Definition no_timed_retry (retryUntil retryAfterMaxlagSeconds
    retryAfterReadonlySeconds : Q) (response : Response) (w : World) : Prop :=
  match headers response !! "retry-after" with
  | Some value =>
      ∀ seconds, parseInt value = Some seconds →
        ¬ (now w + 1000 * inject_Z seconds <= retryUntil)%Q
  | None =>
      (some_code "maxlag" (responseErrors (body response)) = true →
       ¬ (now w + 1000 * retryAfterMaxlagSeconds <= retryUntil)%Q)
      ∧ (some_code "readonly" (responseErrors (body response)) = true →
         ¬ (now w + 1000 * retryAfterReadonlySeconds <= retryUntil)%Q)
  end.

(** ** Chains of requests *)

(** The pages that the loop of [getToken] goes through, as the spec tells
    it: continuation is followed until a response carries the token
    ([Some]) or until no continuation is left ([None]). [pages] counts the
    requests. *)
Inductive token_search (request : Params → Options → Async Body)
    (type : string) (params : Params) (options : Options)
    : Params → World → nat → option string → World → Prop :=
| search_found continueParams w response w' token :
    request (spread params continueParams) options w = Returned response w' →
    response_token type response = Some token →
    token_search request type params options continueParams w 1 (Some token) w'
| search_exhausted continueParams w response w' :
    request (spread params continueParams) options w = Returned response w' →
    response_token type response = None →
    continue response = None →
    token_search request type params options continueParams w 1 None w'
| search_continued continueParams w response w' continueParams' pages found w'' :
    request (spread params continueParams) options w = Returned response w' →
    response_token type response = None →
    continue response = Some continueParams' →
    token_search request type params options continueParams' w' pages found w'' →
    token_search request type params options continueParams w (S pages) found w''.

(** The requests of a paginated query, as the spec tells it: the first
    request carries the continuation parameters given, every later request
    the [continue] object of the response before it; the last response is
    the first one without a [continue] object. Each entry is the parameter
    object of a request and its response. *)
Inductive continuation_pages (request : Params → Options → Async Body)
    (params : Params) (options : Options)
    : Params → World → list (Params * Body) → World → Prop :=
| pages_last continueParams w response w' :
    request (spread params continueParams) options w = Returned response w' →
    continue response = None →
    continuation_pages request params options continueParams w
      [(spread params continueParams, response)] w'
| pages_next continueParams w response w' continueParams' rest w'' :
    request (spread params continueParams) options w = Returned response w' →
    continue response = Some continueParams' →
    continuation_pages request params options continueParams' w' rest w'' →
    continuation_pages request params options continueParams w
      ((spread params continueParams, response) :: rest) w''.

(** ** A scripted transport and the inputs of the examples *)

(** The server answers the n-th transport call with the n-th entry of the
    script, whatever the call is. *)
Definition scripted (script : list TransportResult)
    : list Event → TransportCall → TransportResult :=
  fun trace _ =>
    nth (length (transport_calls trace)) script
      (Rejected 0 "no response left").


Definition piped_values : list Scalar := [SStr "a|b"; SNum 7; SStr "c"].

Definition plain_values : list Scalar := [SStr "a"; SNum 7].

Definition legacy_warnings (modules : list (string * Obj)) : Body :=
  mkBody None None (Some (WarningsObject modules)) None None [].

Definition main_first : list (string * Obj) :=
  [("main", [("*", JStr "Unrecognized parameter: foo.")]);
   ("query", [("*", JStr "Too many values.")])].

Definition main_inside : list (string * Obj) :=
  [("query", [("*", JStr "Too many values.")]);
   ("main", [("*", JStr "Unrecognized parameter: foo.")]);
   ("parse", [("*", JStr "The page has no text.")])].

Definition api_error (code : string) : Obj :=
  [("code", JStr code); ("info", JStr "The request could not be served.")].

Definition body_of_errors (errors : list Obj) : Body :=
  mkBody None (Some errors) None None None [].

Definition done_body : Body :=
  mkBody None None None None None [("batchcomplete", JStr "")].

Definition fresh_session : World :=
  Session "en.wikipedia.org" ∅ no_options 0.

(** A session that has a CSRF token in its cache. *)
Definition session_with_token : World :=
  mkWorld "https://en.wikipedia.org/w/api.php" ∅ no_options
    {[ "csrf" := "abc+" ]} false 0 [].

Definition query_params : Params :=
  {[ "action" := PStr "query"; "format" := PStr "json" ]}.

Definition edit_params : Params :=
  {[ "action" := PStr "edit"; "format" := PStr "json";
     "token" := PTokenPlaceholder ]}.

Definition edit_options : Options :=
  mkOptions (Some "POST") (Some (Some "csrf")) None None None None None
    (Some "example-tool") None None.

Definition unavailable : Response :=
  mkResponse 503 {[ "retry-after" := "1" ]} (body_of_errors [api_error "maxlag"]).

Definition lagged_3_seconds : Response :=
  mkResponse 200 {[ "retry-after" := "3" ]} (body_of_errors [api_error "maxlag"]).

Definition lagged_and_readonly : Response :=
  mkResponse 200 ∅ (body_of_errors [api_error "maxlag"; api_error "readonly"]).



Definition budget_options (seconds : Q) : Options :=
  mkOptions None None None None (Some seconds) None None None None None.




Definition token_body (type token : string) : Body :=
  mkBody None None None None
    (Some (JObj [("tokens", JObj [(type +:+ "token", JStr token)])])) [].

Definition continue_body (key value : string) : Body :=
  mkBody None None None (Some {[ key := PStr value ]}) None [].

Definition responses (bodies : list Body) : list TransportResult :=
  map (fun b => Responded 10 (mkResponse 200 ∅ b)) bodies.

Definition empty_body : Body := mkBody None None None None None [].

Definition empty_userAgent_options : Options :=
  mkOptions None None None None None None None (Some "") None None.

Definition echo (call : TransportCall) : Error + Body :=
  inr (mkBody None None None None None
         [("sent", JNum (Z.of_nat (size (sent_params call))))]).

(** ** Further observations and inputs *)


(** No character outside ASCII (the model's strings are byte strings; the
    regular expression of the source reads UTF-16 code units). *)
Fixpoint ascii_only (s : string) : bool :=
  match s with
  | "" => true
  | String c s' => (nat_of_ascii c <? 128)%nat && ascii_only s'
  end.

(** The transport calls made since [w0]. *)
Definition calls_since (w0 : World) (good : TransportCall → Prop) (w : World)
    : Prop :=
  ∃ new, transport_calls (trace w) = (transport_calls (trace w0) ++ new)%list
         ∧ Forall good new.

(** A call of [internalGet]. *)
Definition is_get (call : TransportCall) : Prop :=
  match call with
  | internalGet _ _ => True
  | internalPost _ _ _ => False
  end.


(** [response.batchcomplete] read as a boolean. *)
Definition completes_batch (response : Body) : bool :=
  responseBoolean (batchcomplete response).

(** A response that ends a batch and is continued. *)
Definition batch_end_body (key value : string) : Body :=
  mkBody None None None (Some {[ key := PStr value ]}) None
    [("batchcomplete", JStr "")].

(** A reducer that counts the responses of a batch. *)
Definition count_response (count : nat) (response : Body) : nat := S count.

(** The errors of the API are thrown with at least one error object, and a
    value is returned only when [ok] holds of it. *)
Definition ends_well {A} (ok : A → Prop) (outcome : Outcome A) : Prop :=
  match outcome with
  | Returned a _ => ok a
  | Thrown (ApiErrors errors) _ => errors ≠ []
  | _ => True
  end.

(** A response without errors. *)
Definition error_free (response : Body) : Prop := responseErrors response = [].

(** The method in lower case. *)
Definition lower_case_get : Options :=
  mkOptions (Some "get") None None None None None None None None None.

(** A server that is always lagged. *)
Definition always_lagged : list Event → TransportCall → TransportResult :=
  fun _ _ => Responded 10 lagged_and_readonly.

(** * Properties *)

(** ** Parameter normalizer *)

Lemma transformParams_lookup (params : Params) (key : string) :
  transformParams params !! key =
  params !! key ≫= fun value =>
    if decide (transformParamValue value = PUndefined) then None
    else Some (transformParamValue value).
Proof. unfold transformParams. by rewrite lookup_omap. Qed.

Example String_of_number_decimal :
  String_of_number 0 = "0" ∧ String_of_number 1203 = "1203"
  ∧ String_of_number (-45) = "-45".
Proof. by vm_compute. Qed.



Lemma split_on_no_sep (c : ascii) (s : string) :
  has_char c s = false → split_on c s = [s].
Proof.
  induction s as [|c' s IH]; simpl; [done|].
  intros H. apply orb_false_iff in H as [Hc Hs].
  rewrite Hc, (IH Hs). done.
Qed.

Lemma split_on_app (c : ascii) (s t : string) :
  has_char c s = false →
  split_on c (s +:+ String c t) = s :: split_on c t.
Proof.
  induction s as [|c' s IH]; simpl.
  - intros _. by rewrite Ascii.eqb_refl.
  - intros H. apply orb_false_iff in H as [Hc Hs].
    rewrite Hc, (IH Hs). done.
Qed.

Lemma split_on_join_strings (c : ascii) (l : list string) :
  l ≠ [] →
  Forall (fun s => has_char c s = false) l →
  split_on c (join_strings (String c "") l) = l.
Proof.
  induction l as [|s l IH]; [done|].
  intros _ Hall. apply Forall_cons in Hall as [Hs Hl].
  destruct l as [|s' l].
  - simpl. by apply split_on_no_sep.
  - change (join_strings (String c "") (s :: s' :: l))
      with (s +:+ String c (join_strings (String c "") (s' :: l))).
    rewrite split_on_app by done. f_equal. by apply IH.
Qed.

(** C7, as the code has it: a collection with an element containing [|]
    becomes the unit separator followed by the elements joined with it, for
    an array and for a set; the text after that prefix splits on the unit
    separator into the elements' string forms when none of them contains
    the unit separator itself; a collection without [|] is joined with
    [|]. *)
Theorem transformParamArray_separators (value : list Scalar) :
  (existsb (fun element => includes (ToString element) PIPE) value = true →
   transformParamValue (PArray value)
   = PStr (String UNIT_SEPARATOR_CHAR (join UNIT_SEPARATOR value))
   ∧ transformParamValue (PSet value)
     = PStr (String UNIT_SEPARATOR_CHAR (join UNIT_SEPARATOR value))
   ∧ (Forall (fun element =>
                has_char UNIT_SEPARATOR_CHAR (ToString element) = false) value →
      split_on UNIT_SEPARATOR_CHAR (join UNIT_SEPARATOR value)
      = map ToString value))
  ∧ (existsb (fun element => includes (ToString element) PIPE) value = false →
     transformParamValue (PArray value) = PStr (join PIPE value)
     ∧ transformParamValue (PSet value) = PStr (join PIPE value)).
Proof.
  split; intros Hpipe; simpl; unfold transformParamArray; rewrite Hpipe.
  - split; [done|]. split; [done|]. intros Hsep.
    unfold join. apply split_on_join_strings.
    + destruct value; [discriminate|done].
    + by apply Forall_map.
  - done.
Qed.

Lemma transformParamArray_separators_witness :
  transformParamValue (PSet piped_values)
  = PStr (String UNIT_SEPARATOR_CHAR (join UNIT_SEPARATOR piped_values))
  ∧ split_on UNIT_SEPARATOR_CHAR (join UNIT_SEPARATOR piped_values)
    = ["a|b"; "7"; "c"]
  ∧ transformParamValue (PArray plain_values) = PStr "a|7".
Proof.
  refine (conj _ (conj _ _)).
  - apply (proj1 (transformParamArray_separators piped_values)). reflexivity.
  - apply (proj1 (transformParamArray_separators piped_values)).
    + reflexivity.
    + repeat constructor.
  - apply (proj2 (transformParamArray_separators plain_values)). reflexivity.
Defined.

(** C7 as stated fails: the normalized value itself, split on the unit
    separator, begins with an empty piece that is not an element. *)
Lemma split_of_normalized_value_counterexample :
  existsb (fun element => includes (ToString element) PIPE) piped_values = true
  ∧ transformParamValue (PArray piped_values)
    = PStr (UNIT_SEPARATOR +:+ join UNIT_SEPARATOR piped_values)
  ∧ split_on UNIT_SEPARATOR_CHAR
      (UNIT_SEPARATOR +:+ join UNIT_SEPARATOR piped_values)
    = "" :: map ToString piped_values
  ∧ split_on UNIT_SEPARATOR_CHAR
      (UNIT_SEPARATOR +:+ join UNIT_SEPARATOR piped_values)
    ≠ map ToString piped_values.
Proof. by vm_compute. Qed.

(** ** Response classifier *)

Lemma obj_get_set_eq (o : Obj) (k : string) (v : JSON) :
  obj_get (obj_set o k v) k = Some v.
Proof.
  induction o as [|[k' v'] o IH]; simpl.
  - by rewrite String.eqb_refl.
  - destruct (String.eqb k k') eqn:E; simpl; rewrite E; [done|apply IH].
Qed.

Lemma obj_get_set_ne (o : Obj) (k k' : string) (v : JSON) :
  k ≠ k' → obj_get (obj_set o k v) k' = obj_get o k'.
Proof.
  intros Hne. induction o as [|[k0 v0] o IH]; simpl.
  - destruct (String.eqb k' k) eqn:E; [|done].
    apply String.eqb_eq in E. congruence.
  - destruct (String.eqb k k0) eqn:E; simpl.
    + apply String.eqb_eq in E. subst k0.
      destruct (String.eqb k' k) eqn:E'; [|done].
      apply String.eqb_eq in E'. congruence.
    + by rewrite IH.
Qed.

(** C8, as the code has it: a nonempty legacy mapping becomes a list with
    one entry for each module, each entry being the module's warning with
    the module name added; the order is that of the mapping, except that a
    [main] module that comes first in the mapping is moved to the end. *)
Theorem responseWarnings_legacy (response : Body)
    (first : string * Obj) (rest : list (string * Obj))
    (Hlegacy : warnings response = Some (WarningsObject (first :: rest))) :
  ∃ result,
    responseWarnings response = inr result
    ∧ result ≡ₚ map tag_module (first :: rest)
    ∧ (∀ entry, obj_get (tag_module entry) "module" = Some (JStr entry.1)
                ∧ ∀ k, k ≠ "module" →
                       obj_get (tag_module entry) k = obj_get entry.2 k)
    ∧ (first.1 = "main" →
       result = (map tag_module rest ++ [tag_module first])%list
       ∧ last result = Some (tag_module first))
    ∧ (first.1 ≠ "main" → result = map tag_module (first :: rest)).
Proof.
  unfold responseWarnings. rewrite Hlegacy.
  destruct (String.eqb first.1 "main") eqn:E.
  - apply String.eqb_eq in E.
    exists (map tag_module rest ++ [tag_module first])%list.
    unfold tag_modules. rewrite map_app. simpl.
    repeat split.
    + symmetry. apply Permutation_cons_append.
    + apply obj_get_set_eq.
    + intros k Hk. unfold tag_module. by apply obj_get_set_ne.
    + by rewrite last_snoc.
    + congruence.
  - apply String.eqb_neq in E.
    exists (map tag_module (first :: rest)).
    repeat split.
    + done.
    + apply obj_get_set_eq.
    + intros k Hk. unfold tag_module. by apply obj_get_set_ne.
    + congruence.
    + congruence.
Qed.

Lemma responseWarnings_legacy_witness :
  ∃ result,
    responseWarnings (legacy_warnings main_first) = inr result
    ∧ last result
      = Some [("*", JStr "Unrecognized parameter: foo."); ("module", JStr "main")].
Proof.
  destruct (responseWarnings_legacy (legacy_warnings main_first)
              ("main", [("*", JStr "Unrecognized parameter: foo.")])
              [("query", [("*", JStr "Too many values.")])] eq_refl)
    as (result & Hresult & _ & _ & Hmain & _).
  exists result. split; [exact Hresult|].
  exact (proj2 (Hmain eq_refl)).
Defined.

(** C8 as stated fails: a [main] module that is not the first key of the
    mapping stays where it is, so its entry is not the last one. *)
Lemma main_inside_counterexample :
  ∃ result,
    responseWarnings (legacy_warnings main_inside) = inr result
    ∧ In "main" (map fst main_inside)
    ∧ last result
      = Some [("*", JStr "The page has no text."); ("module", JStr "parse")]
    ∧ last result ≠ Some (tag_module
        ("main", [("*", JStr "Unrecognized parameter: foo.")])).
Proof. eexists. by vm_compute; intuition. Qed.

(** An empty legacy mapping is not classified at all. *)
Example responseWarnings_empty_mapping :
  responseWarnings (legacy_warnings []) = inl TypeError.
Proof. reflexivity. Qed.

(** ** Dispatch engine *)

Ltac async := unfold mbind, Async_bind, mret, Async_ret, read, effect, throw.

Tactic Notation "async" "in" hyp(H) :=
  unfold mbind, Async_bind, mret, Async_ret, read, effect, throw in H.


Lemma retryIfBefore_late (retryUntil : Q) (again : Async Body)
    (seconds : Q) (w : World) :
  ¬ (now w + 1000 * seconds <= retryUntil)%Q →
  retryIfBefore retryUntil again (Some seconds) w = None.
Proof.
  intros H. unfold retryIfBefore.
  destruct (Qle_bool _ _) eqn:E; [|done].
  apply Qle_bool_iff in E. contradiction.
Qed.

Section Evaluate.

Variables (warn : WarnHandler) (retryUntil maxlag readonly : Q).
Variables (usedToken : bool) (again : Async Body).
Variables (response : Response) (w : World).
Hypothesis status_200 : status response = 200.

Let errors := responseErrors (body response).
Let result := evaluate warn retryUntil maxlag readonly usedToken again response w.




(** Without a timed retry, what is left is the bad-token step and the
    conclusion. *)
Lemma evaluate_no_timed_retry :
  no_timed_retry retryUntil maxlag readonly response w →
  result =
  if usedToken && some_code "badtoken" errors
  then
    if Qle_bool (now w + 1000 * 0) retryUntil
    then again (setTimeout (1000 * 0) (tokens_clear w))
    else conclude warn (body response) (tokens_clear w)
  else conclude warn (body response) w.
Proof.
  unfold no_timed_retry, result, evaluate. rewrite status_200. simpl.
  fold errors.
  destruct (headers response !! "retry-after") as [value|] eqn:Hh; simpl.
  - intros Hlate. async.
    assert (retryIfBefore retryUntil again (inject_Z <$> parseInt value) w
            = None) as ->.
    { destruct (parseInt value) as [seconds|]; [|done].
      apply retryIfBefore_late. by apply Hlate. }
    destruct (usedToken && some_code "badtoken" errors); [|done].
    unfold retryIfBefore. simpl.
    by destruct (Qle_bool _ _).
  - intros [Hm Hr]. async.
    destruct (some_code "maxlag" errors); cbv beta;
      [rewrite retryIfBefore_late by auto|];
      (destruct (some_code "readonly" errors); cbv beta;
       [rewrite retryIfBefore_late by auto|]);
      (destruct (usedToken && some_code "badtoken" errors); [|done];
       unfold retryIfBefore; simpl; by destruct (Qle_bool _ _)).
Qed.

End Evaluate.

(** The conclusion throws the errors of the body, or fails on an empty
    legacy warnings mapping, or returns the body. *)
Lemma conclude_outcome (warn : WarnHandler) (body : Body) (w : World) :
  (responseErrors body ≠ [] ∧
   conclude warn body w = Thrown (ApiErrors (responseErrors body)) w)
  ∨ (responseErrors body = [] ∧
     conclude warn body w = Thrown TypeError w)
  ∨ (responseErrors body = [] ∧
     ∃ w', conclude warn body w = Returned (tagged_body body) w').
Proof.
  unfold conclude.
  destruct (responseErrors body) as [|e errors] eqn:E; simpl.
  - right. destruct (responseWarnings body) as [err|ws] eqn:Ew.
    + left. split; [done|].
      unfold responseWarnings in Ew.
      destruct (warnings body) as [[l|[|first rest]]|]; by simplify_eq.
    + right. split; [done|]. async.
      destruct (0 <? length ws)%nat; eauto.
  - left. done.
Qed.



Section InternalRequest.

Variable transport : list Event → TransportCall → TransportResult.
Variables (fuel : nat) (method : string) (params : Params).
Variables (userAgent : string) (warn : WarnHandler).
Variables (tokenType : option string) (tokenName : string).
Variables (retryUntil maxlag readonly : Q).

(** The call with fuel for one dispatch, and the same call again. *)
Let this_call :=
  internalRequest transport (S fuel) method params userAgent warn tokenType
    tokenName retryUntil maxlag readonly.
Let again :=
  internalRequest transport fuel method params userAgent warn tokenType
    tokenName retryUntil maxlag readonly.

Variables (w : World) (tokenParams : option Params) (w1 : World).
Variables (call : TransportCall) (elapsed : Q) (response : Response).

Hypothesis token_resolved :
  resolveToken (getToken transport fuel) params userAgent warn tokenType
    tokenName retryUntil maxlag readonly w
  = Returned tokenParams w1.
Hypothesis dispatched :
  transportCall method (spread params (default ∅ tokenParams)) userAgent
  = Some call.
Hypothesis responded :
  transport (trace w1) call = Responded elapsed response.

(** The world in which the response is evaluated. *)
Let w2 := advance elapsed (record (Transport call) w1).

Lemma internalRequest_evaluates :
  this_call w
  = evaluate warn retryUntil maxlag readonly
      (bool_decide (is_Some tokenParams)) again response w2.
Proof.
  unfold this_call. simpl. async.
  rewrite token_resolved. unfold send. rewrite dispatched.
  unfold await_transport. by rewrite responded.
Qed.

(** C2: a response whose status is not 200 makes the request fail at once
    with the status error: nothing of the response is looked at, no
    timeout is started and the request is not sent again, whatever the
    headers and the body are. *)
Theorem non200_is_fatal (Hstatus : status response ≠ 200) :
  this_call w = Thrown (Non200Status (status response)) w2.
Proof.
  rewrite internalRequest_evaluates. unfold evaluate.
  apply Z.eqb_neq in Hstatus. by rewrite Hstatus.
Qed.



End InternalRequest.

Lemma non200_is_fatal_witness :
  internalRequest (scripted [Responded 10 unavailable]) 1 "GET" query_params
    DEFAULT_USER_AGENT console_warn None "token" (65000 # 1) (5 # 1) (30 # 1)
    fresh_session
  = Thrown (Non200Status 503)
      (advance 10
         (record (Transport (internalGet query_params DEFAULT_USER_AGENT))
            fresh_session)).
Proof.
  apply (non200_is_fatal (scripted [Responded 10 unavailable]) 0 "GET"
           query_params DEFAULT_USER_AGENT console_warn None "token"
           (65000 # 1) (5 # 1) (30 # 1) fresh_session None fresh_session
           (internalGet query_params DEFAULT_USER_AGENT) 10 unavailable).
  - reflexivity.
  - reflexivity.
  - reflexivity.
  - vm_compute. discriminate.
Defined.



(** The two runs of the spec: a [retry-after: 3] header with a budget of 10
    seconds is waited for and the same request is sent again; with a budget
    of 1 second there is no retry and the errors of the response are
    thrown. *)
Example retry_after_3_budget_10 :
  ∃ w',
    request
      (scripted [Responded 10 lagged_3_seconds;
                 Responded 10 (mkResponse 200 ∅ done_body)])
      3 {[ "action" := PStr "query" ]} (budget_options (10 # 1)) fresh_session
    = Returned done_body w'
    ∧ timeouts (trace w') = [(3000 # 1)%Q]
    ∧ transport_calls (trace w')
      = [internalGet query_params DEFAULT_USER_AGENT;
         internalGet query_params DEFAULT_USER_AGENT].
Proof. eexists; split; [vm_compute; reflexivity|by vm_compute]. Qed.

Example retry_after_3_budget_1 :
  ∃ w',
    request
      (scripted [Responded 10 lagged_3_seconds;
                 Responded 10 (mkResponse 200 ∅ done_body)])
      3 {[ "action" := PStr "query" ]} (budget_options (1 # 1)) fresh_session
    = Thrown (ApiErrors [api_error "maxlag"]) w'
    ∧ timeouts (trace w') = []
    ∧ transport_calls (trace w')
      = [internalGet query_params DEFAULT_USER_AGENT].
Proof. eexists; split; [vm_compute; reflexivity|by vm_compute]. Qed.


(** The run of the spec: a request with a cached token that is answered
    with [badtoken] empties the cache, retries at once, fetches a new token
    and sends the request again. *)
Example badtoken_fetches_new_token :
  ∃ w',
    request
      (scripted (responses [body_of_errors [api_error "badtoken"];
                            token_body "csrf" "new+"; done_body]))
      7 {[ "action" := PStr "edit" ]} edit_options session_with_token
    = Returned done_body w'
    ∧ tokens w' = {[ "csrf" := "new+" ]}
    ∧ cache_clearings (trace w') = 1%nat
    ∧ cache_writes (trace w') = [("csrf", "new+")]
    ∧ timeouts (trace w') = [0%Q]
    ∧ length (transport_calls (trace w')) = 3%nat.
Proof. eexists; split; [vm_compute; reflexivity|by vm_compute]. Qed.


(** ** Preservation along a call *)


Lemma retryIfBefore_cases (retryUntil : Q) (again : Async Body)
    (retryAfterSeconds : option Q) (w : World) :
  retryIfBefore retryUntil again retryAfterSeconds w = None
  ∨ ∃ seconds,
      retryIfBefore retryUntil again retryAfterSeconds w
      = Some (effect (setTimeout (1000 * seconds)) ;; again).
Proof.
  unfold retryIfBefore. destruct retryAfterSeconds as [seconds|]; [|by left].
  destruct (Qle_bool _ _); eauto.
Qed.

(** The ways [evaluate] can end. *)
Lemma evaluate_cases (warn : WarnHandler) (retryUntil maxlag readonly : Q)
    (usedToken : bool) (again : Async Body) (response : Response) (w : World) :
  let result := evaluate warn retryUntil maxlag readonly usedToken again response w in
  result = Thrown (Non200Status (status response)) w
  ∨ (∃ millis, result = again (setTimeout millis w))
  ∨ result = conclude warn (body response) w
  ∨ (usedToken = true
     ∧ (result = again (setTimeout 0 (tokens_clear w))
        ∨ result = conclude warn (body response) (tokens_clear w))).
Proof.
  intros result. subst result. unfold evaluate.
  destruct (negb (status response =? 200)); [by left|].
  async.
  destruct (bool_decide _); cbv beta;
    [match goal with
     | |- context [retryIfBefore ?r ?a ?s ?w] =>
         destruct (retryIfBefore_cases r a s w) as [-> | [? ->]];
           [|by right; left; eexists]
     end|];
  (destruct (_ && some_code "maxlag" _); cbv beta;
    [match goal with
     | |- context [retryIfBefore ?r ?a ?s ?w] =>
         destruct (retryIfBefore_cases r a s w) as [-> | [? ->]];
           [|by right; left; eexists]
     end|]);
  (destruct (_ && some_code "readonly" _); cbv beta;
    [match goal with
     | |- context [retryIfBefore ?r ?a ?s ?w] =>
         destruct (retryIfBefore_cases r a s w) as [-> | [? ->]];
           [|by right; left; eexists]
     end|]);
  (destruct usedToken; simpl; [|by right; right; left]);
  (destruct (some_code "badtoken" _); cbv beta; [|by right; right; left]);
  right; right; right; (split; [done|]);
  unfold retryIfBefore; (destruct (Qle_bool _ _); [by left|by right]).
Qed.


Lemma after_bind {A B} (P : World → Prop) (m : Async A) (k : A → Async B)
    (w : World) :
  after P (m w) →
  (∀ a w', m w = Returned a w' → P w' → after P (k a w')) →
  after P ((m ≫= k) w).
Proof.
  intros Hm Hk. async. destruct (m w) as [a w'|e w'|]; simpl in *; auto.
Qed.

Section Preservation.

Variable P : World → Prop.
Hypothesis P_timeout : ∀ millis w, P w → P (setTimeout millis w).
Hypothesis P_warnings :
  ∀ handler ws w, P w → P (call_warn handler (ApiWarnings ws) w).

Lemma conclude_after (warn : WarnHandler) (body : Body) (w : World) :
  P w → after P (conclude warn body w).
Proof.
  intros Hw. unfold conclude.
  destruct (0 <? length (responseErrors body))%nat; [done|].
  destruct (responseWarnings body) as [e|ws]; [done|]. async.
  destruct (0 <? length ws)%nat; simpl; auto.
Qed.

Lemma evaluate_after (warn : WarnHandler) (retryUntil maxlag readonly : Q)
    (usedToken : bool) (again : Async Body) (response : Response) (w : World) :
  (usedToken = true → ∀ w, P w → P (tokens_clear w)) →
  (∀ w, P w → after P (again w)) →
  P w →
  after P (evaluate warn retryUntil maxlag readonly usedToken again response w).
Proof.
  intros Hclear Hagain Hw.
  destruct (evaluate_cases warn retryUntil maxlag readonly usedToken again
              response w) as [-> | [[millis ->] | [-> | [Hused [-> | ->]]]]].
  - done.
  - auto.
  - by apply conclude_after.
  - auto.
  - apply conclude_after. auto.
Qed.

End Preservation.

Lemma same_cache_refl (w : World) : same_cache w w.
Proof. done. Qed.

Lemma same_cache_record (w0 w : World) (e : Event) :
  touches_cache e = false → same_cache w0 w → same_cache w0 (record e w).
Proof.
  intros He (Ht & Hw & Hc). split; [done|]. simpl. split.
  - unfold cache_writes in *. rewrite omap_app, Hw.
    destruct e; simpl in *; try discriminate; by rewrite app_nil_r.
  - unfold cache_clearings in *. rewrite List.filter_app, length_app, Hc.
    destruct e; simpl in *; try discriminate; lia.
Qed.

Lemma same_cache_trans (w0 w1 w2 : World) :
  same_cache w0 w1 → same_cache w1 w2 → same_cache w0 w2.
Proof. intros (? & ? & ?) (? & ? & ?). repeat split; congruence. Qed.

Lemma same_cache_advance (w0 w : World) (millis : Q) :
  same_cache w0 w → same_cache w0 (advance millis w).
Proof. done. Qed.

Lemma same_cache_setTimeout (w0 w : World) (millis : Q) :
  same_cache w0 w → same_cache w0 (setTimeout millis w).
Proof. intros H. unfold setTimeout. by apply same_cache_record. Qed.

Lemma same_cache_call_warn (w0 : World) (handler : WarnHandler) (e : Warning) (w : World) :
  same_cache w0 w → same_cache w0 (call_warn handler e w).
Proof.
  intros H. revert e.
  induction handler as [| id | handler IH]; intros e; simpl.
  - by apply same_cache_record.
  - by apply same_cache_record.
  - destruct e as [ws| |]; auto.
    destruct (0 <? _)%nat; auto.
Qed.

Lemma same_cache_warned (w0 w : World) (b : bool) :
  same_cache w0 w → same_cache w0 (with_warnedDefaultUserAgent b w).
Proof. done. Qed.

Lemma internalRequest_tokenless transport (w0 : World) (fuel : nat) :
  ∀ method params userAgent warn tokenName retryUntil maxlag readonly w,
    same_cache w0 w →
    after (same_cache w0)
      (internalRequest transport fuel method params userAgent warn None
         tokenName retryUntil maxlag readonly w).
Proof.
  induction fuel as [|fuel IH]; intros; [done|].
  simpl. apply after_bind.
  { unfold resolveToken. by destruct (decide _). }
  intros tokenParams w1 Htoken Hw1.
  assert (tokenParams = None) as ->.
  { unfold resolveToken in Htoken.
    destruct (decide _); unfold throw, mret, Async_ret in Htoken;
      by simplify_eq. }
  apply after_bind.
  { unfold send. destruct (transportCall _ _ _) as [call|]; [|done].
    unfold await_transport.
    destruct (transport _ _); simpl;
      by apply same_cache_advance, same_cache_record. }
  intros response w2 _ Hw2.
  apply evaluate_after; auto using same_cache_setTimeout, same_cache_call_warn.
  done.
Qed.

Lemma fullUserAgent_same_cache (w0 : World) (o : RequestOptions) (w : World) :
  same_cache w0 w → after (same_cache w0) (fullUserAgent o w).
Proof.
  intros H. unfold fullUserAgent.
  destruct (given_userAgent o); [done|]. async.
  destruct (negb (warnedDefaultUserAgent w)); simpl; [|done].
  by apply same_cache_warned, same_cache_call_warn.
Qed.

Lemma warnMaxRetries_same_cache (w0 : World) options (o : RequestOptions) (w : World) :
  same_cache w0 w → after (same_cache w0) (warnMaxRetries options o w).
Proof.
  intros H. unfold warnMaxRetries. async.
  destruct (_ && _); simpl; [|done].
  by apply same_cache_call_warn.
Qed.

Lemma request_tokenless transport (w0 : World) (fuel : nat) params options w :
  o_tokenType options = Some None →
  same_cache w0 w →
  after (same_cache w0) (request transport fuel params options w).
Proof.
  intros Htype Hw. destruct fuel as [|fuel]; [done|].
  simpl. apply after_bind; [done|]. intros o w1 Ho Hw1.
  apply after_bind; [by apply warnMaxRetries_same_cache|].
  intros [] w2 _ Hw2.
  apply after_bind; [by apply fullUserAgent_same_cache|].
  intros ua w3 _ Hw3.
  apply after_bind; [done|]. intros t w4 _ Hw4.
  apply after_bind; [done|]. intros transformed w5 _ Hw5.
  assert (tokenType o = None) as ->.
  { unfold read in Ho. simplify_eq. unfold composeOptions. simpl.
    by rewrite Htype. }
  by apply internalRequest_tokenless.
Qed.

Lemma token_search_same_cache transport fuel type params options
    continueParams w pages found w' :
  o_tokenType options = Some None →
  token_search (request transport fuel) type params options continueParams w
    pages found w' →
  same_cache w w'.
Proof.
  intros Htype Hsearch.
  induction Hsearch as [cp w r w' token Hreq _ | cp w r w' Hreq _ _
                       | cp w r w' cp' pages found w'' Hreq _ _ _ IH].
  - pose proof (request_tokenless transport w fuel (spread params cp) options
                  w Htype (same_cache_refl w)) as H.
    by rewrite Hreq in H.
  - pose proof (request_tokenless transport w fuel (spread params cp) options
                  w Htype (same_cache_refl w)) as H.
    by rewrite Hreq in H.
  - pose proof (request_tokenless transport w fuel (spread params cp) options
                  w Htype (same_cache_refl w)) as H.
    rewrite Hreq in H. by eapply same_cache_trans.
Qed.

Lemma getToken_pages_search request type params options continueParams w
    pages found w' :
  token_search request type params options continueParams w pages found w' →
  ∀ turns, (pages ≤ turns)%nat →
    getToken_pages request turns type params options continueParams w
    = Returned tt (match found with
                   | Some token => tokens_set type token w'
                   | None => w'
                   end).
Proof.
  induction 1 as [cp w r w' token Hreq Htoken | cp w r w' Hreq Htoken Hcont
                 | cp w r w' cp' pages found w'' Hreq Htoken Hcont _ IH];
    intros [|turns] Hturns; try lia; simpl;
    unfold requestAndContinue_turn; async; rewrite Hreq, Htoken; try done.
  - by rewrite Hcont.
  - rewrite Hcont. apply IH. lia.
Qed.

(** ** Token cache *)

(** C4, as the code has it: a cached token is returned without any request;
    otherwise the pages of the token query are requested until one carries
    the token, which is stored under the type (one write to the cache) and
    returned; when the pages end without a token, [undefined] is returned
    without an error and the cache is not written. *)
Theorem getToken_cache transport (fuel : nat) (type : string)
    (options : Options) (w : World) :
  (∀ token, tokens w !! type = Some token →
     getToken transport (S fuel) type options w = Returned (Some token) w)
  ∧ (tokens w !! type = None →
     ∀ pages found w',
       token_search (request transport fuel) type (tokenRequestParams type)
         (tokenRequestOptions options) {[ "continue" := PUndefined ]}
         w pages found w' →
       (pages ≤ fuel)%nat →
       match found with
       | Some token =>
           getToken transport (S fuel) type options w
           = Returned (Some token) (tokens_set type token w')
           ∧ cache_writes (trace (tokens_set type token w'))
             = (cache_writes (trace w) ++ [(type, token)])%list
           ∧ tokens (tokens_set type token w') = <[type := token]> (tokens w)
       | None =>
           getToken transport (S fuel) type options w = Returned None w'
           ∧ cache_writes (trace w') = cache_writes (trace w)
           ∧ tokens w' = tokens w
       end).
Proof.
  split.
  - intros token Hcached. simpl. async. rewrite Hcached. by rewrite Hcached.
  - intros Hmiss pages found w' Hsearch Hpages.
    assert (o_tokenType (tokenRequestOptions options) = Some None) as Htype
      by done.
    pose proof (token_search_same_cache _ _ _ _ _ _ _ _ _ _ Htype Hsearch)
      as (Htokens & Hwrites & _).
    pose proof (getToken_pages_search _ _ _ _ _ _ _ _ _ Hsearch fuel Hpages)
      as Hloop.
    simpl. async. rewrite Hmiss, Hloop.
    destruct found as [token|].
    + simpl. rewrite lookup_insert_eq. split; [done|].
      split; [|by rewrite Htokens].
      unfold cache_writes in *. by rewrite omap_app, Hwrites.
    + by rewrite Htokens, Hmiss.
Qed.

Lemma getToken_cache_witness :
  ∃ w',
    getToken
      (scripted (responses [continue_body "continue" "-||"; token_body "csrf" "xyz+"]))
      4 "csrf" no_options fresh_session
    = Returned (Some "xyz+") w'
    ∧ cache_writes (trace w') = [("csrf", "xyz+")]
    ∧ tokens w' = {[ "csrf" := "xyz+" ]}.
Proof.
  eexists.
  refine (proj2 (getToken_cache
                   (scripted (responses [continue_body "continue" "-||";
                                         token_body "csrf" "xyz+"]))
                   3 "csrf" no_options fresh_session)
            eq_refl 2%nat (Some "xyz+") _ _ _).
  - eapply search_continued.
    + vm_compute. reflexivity.
    + reflexivity.
    + reflexivity.
    + eapply search_found.
      * vm_compute. reflexivity.
      * reflexivity.
  - lia.
Defined.

(** C4 as stated fails: a call that finds the token cached writes no cache
    entry, and neither does a call whose pages end without a token. *)
Lemma getToken_writes_counterexample :
  (getToken (scripted []) 1 "csrf" no_options session_with_token
   = Returned (Some "abc+") session_with_token
   ∧ cache_writes (trace session_with_token) = [])
  ∧ (∃ w',
       getToken (scripted (responses [done_body])) 4 "csrf" no_options
         fresh_session
       = Returned None w'
       ∧ cache_writes (trace w') = []
       ∧ tokens w' = ∅).
Proof.
  split; [by vm_compute|].
  eexists; split; [vm_compute; reflexivity|by vm_compute].
Qed.

(** ** Continuation *)

Lemma requestAndContinue_from_pages transport fuel params options
    continueParams w calls w' :
  continuation_pages (request transport fuel) params options continueParams w
    calls w' →
  ∀ turns, (length calls ≤ turns)%nat →
    requestAndContinue_from transport fuel turns params options
      continueParams w
    = Returned (map snd calls) w'.
Proof.
  induction 1 as [cp w r w' Hreq Hcont
                 | cp w r w' cp' rest w'' Hreq Hcont _ IH];
    intros [|turns] Hturns; simpl in Hturns; try lia; simpl;
    unfold requestAndContinue_turn; async; rewrite Hreq, Hcont; [done|].
  rewrite IH by lia. done.
Qed.

Lemma requestAndContinue_from_returns transport fuel turns :
  ∀ params options continueParams w items w',
    requestAndContinue_from transport fuel turns params options
      continueParams w
    = Returned items w' →
    ∃ calls,
      continuation_pages (request transport fuel) params options
        continueParams w calls w'
      ∧ items = map snd calls.
Proof.
  induction turns as [|turns IH]; intros params options cp w items w' Hrun;
    [done|].
  simpl in Hrun. unfold requestAndContinue_turn in Hrun. async in Hrun.
  destruct (request transport fuel (spread params cp) options w)
    as [r w1|e w1|] eqn:Hreq; try done.
  destruct (continue r) as [cp'|] eqn:Hcont.
  - destruct (requestAndContinue_from transport fuel turns params options cp' w1)
      as [rest w2|e w2|] eqn:Hrest; try done.
    simplify_eq. apply IH in Hrest as (calls & Hcalls & ->).
    exists ((spread params cp, r) :: calls). split; [|done].
    by eapply pages_next.
  - simplify_eq. exists [(spread params cp, r)]. split; [|done].
    by apply pages_last.
Qed.

Lemma first_request_has_no_continue (o : RequestOptions) (params : Params) (w : World) :
  requestParams o (spread params {[ "continue" := PUndefined ]}) w !! "continue"
  = None.
Proof.
  unfold requestParams. rewrite transformParams_lookup.
  rewrite lookup_insert_ne by done.
  unfold spread. rewrite lookup_union_l'; last first.
  { rewrite lookup_union_l'; [by rewrite lookup_singleton_eq|].
    rewrite lookup_singleton_eq. eauto. }
  rewrite lookup_union_l' by (rewrite lookup_singleton_eq; eauto).
  by rewrite lookup_singleton_eq.
Qed.

Lemma quiet_call_warn (handler : WarnHandler) (e : Warning) (w0 w : World) :
  quiet w0 w → quiet w0 (call_warn handler e w).
Proof.
  intros H. revert e.
  induction handler as [| id | handler IH]; intros e; simpl.
  - destruct H as (H1 & H2 & H3 & H4). repeat split; try done. simpl.
    unfold transport_calls in *. rewrite omap_app. simpl.
    by rewrite app_nil_r.
  - destruct H as (H1 & H2 & H3 & H4). repeat split; try done. simpl.
    unfold transport_calls in *. rewrite omap_app. simpl.
    by rewrite app_nil_r.
  - destruct e as [ws| |]; auto.
    destruct (0 <? _)%nat; auto.
Qed.

Lemma warnMaxRetries_quiet options o w :
  ∃ w', warnMaxRetries options o w = Returned tt w' ∧ quiet w w'.
Proof.
  unfold warnMaxRetries. async.
  destruct (_ && _); eexists; (split; [reflexivity|]).
  - by apply quiet_call_warn.
  - done.
Qed.

Lemma fullUserAgent_quiet o w :
  ∃ ua w', fullUserAgent o w = Returned ua w' ∧ quiet w w'.
Proof.
  unfold fullUserAgent. async.
  destruct (given_userAgent o); [by eexists _, _|].
  destruct (negb (warnedDefaultUserAgent w)); simpl;
    eexists _, _; (split; [reflexivity|]); [|done].
  pose proof (quiet_call_warn (warn o) DefaultUserAgentWarning w w) as H.
  destruct H as (H1 & H2 & H3 & H4); done.
Qed.

Lemma transformParams_placeholder (params : Params) (key : string) :
  transformParams params !! key = Some PTokenPlaceholder →
  params !! key = Some PTokenPlaceholder.
Proof.
  rewrite transformParams_lookup.
  destruct (params !! key) as [value|]; [|done]. simpl.
  destruct (decide _); [done|].
  destruct value as [| | [|] | | | | |]; simpl; try done; congruence.
Qed.

Lemma requestParams_plain (o : RequestOptions) (params : Params) (w : World) :
  tokenType o = None → plain params → plain (defaultParams w) →
  plain (requestParams o params w).
Proof.
  intros Htype Hp Hd key Hkey. unfold requestParams in Hkey.
  apply transformParams_placeholder in Hkey.
  unfold tokenParams in Hkey. rewrite Htype in Hkey. unfold spread in Hkey.
  apply lookup_insert_Some in Hkey as [[_ ?]|[_ Hkey]]; [done|].
  apply lookup_union_Some_raw in Hkey as [Hkey|[_ Hkey]]; [by apply Hp in Hkey|].
  apply lookup_union_Some_raw in Hkey as [Hkey|[_ Hkey]]; [done|].
  by apply Hd in Hkey.
Qed.

Lemma sent_params_transportCall method params userAgent :
  method = "GET" ∨ method = "POST" →
  ∃ call, transportCall method params userAgent = Some call
          ∧ sent_params call = params.
Proof.
  intros [-> | ->]; unfold transportCall; simpl.
  - by eexists.
  - eexists. split; [reflexivity|]. simpl.
    apply map_eq. intros key.
    destruct (is_url_param key) eqn:E.
    + destruct (params !! key) as [v|] eqn:Hv.
      * apply lookup_union_Some_l. by apply map_lookup_filter_Some.
      * apply lookup_union_None. split; apply map_lookup_filter_None; left; done.
    + destruct (params !! key) as [v|] eqn:Hv.
      * rewrite lookup_union_r.
        -- by apply map_lookup_filter_Some.
        -- apply map_lookup_filter_None. right. intros v' _. simpl. congruence.
      * apply lookup_union_None. split; apply map_lookup_filter_None; left; done.
Qed.

Lemma request_scripted_simple script (fuel : nat) (params : Params)
    (options : Options) (w : World) (elapsed : Q) (response : Body) :
  let o := composeOptions options w in
  tokenType o = None →
  method o = "GET" ∨ method o = "POST" →
  plain params → plain (defaultParams w) →
  script !! length (transport_calls (trace w))
  = Some (Responded elapsed (mkResponse 200 ∅ response)) →
  responseErrors response = [] →
  warnings response = None →
  ∃ w' call,
    request (scripted script) (S (S fuel)) params options w
    = Returned response w'
    ∧ transport_calls (trace w') = (transport_calls (trace w) ++ [call])%list
    ∧ sent_params call = requestParams o params w
    ∧ defaultParams w' = defaultParams w
    ∧ defaultOptions w' = defaultOptions w.
Proof.
  intros o Htype Hmethod Hplain Hdefault Hscript Herrors Hwarnings.
  destruct (warnMaxRetries_quiet options o w) as (w1 & Hw1 & Hq1).
  destruct (fullUserAgent_quiet o w1) as (ua & w2 & Hw2 & Hq2).
  destruct Hq1 as (Hc1 & Hp1 & Ho1 & Hn1).
  destruct Hq2 as (Hc2 & Hp2 & Ho2 & Hn2).
  destruct (sent_params_transportCall (method o) (requestParams o params w) ua
              Hmethod) as (call & Hcall & Hsent).
  exists (advance elapsed (record (Transport call) w2)), call.
  split; [|repeat split].
  - change (request (scripted script) (S (S fuel)) params options w)
      with ((o ← read (composeOptions options);
             warnMaxRetries options o ;;
             userAgent ← fullUserAgent o;
             t ← read now;
             transformed ← read (requestParams o params);
             internalRequest (scripted script) (S fuel) (method o) transformed
               userAgent (actualWarn o) (tokenType o) (tokenName o)
               (t + maxRetriesSeconds o * 1000)%Q
               (retryAfterMaxlagSeconds o) (retryAfterReadonlySeconds o)) w).
    async. fold o. unfold effect, read in Hw1. rewrite Hw1. cbv beta.
    rewrite Hw2.
    assert (requestParams o params w2 = requestParams o params w) as ->.
    { unfold requestParams. by rewrite Hp2, Hp1. }
    rewrite Htype.
    rewrite (internalRequest_evaluates (scripted script) fuel (method o)
               (requestParams o params w) ua (actualWarn o) None (tokenName o)
               (now w2 + maxRetriesSeconds o * 1000)%Q
               (retryAfterMaxlagSeconds o) (retryAfterReadonlySeconds o)
               w2 None w2 call elapsed (mkResponse 200 ∅ response)).
    + rewrite evaluate_no_timed_retry; [| done | ].
      * simpl. unfold conclude, responseWarnings, tagged_body.
        rewrite Herrors, Hwarnings. done.
      * unfold no_timed_retry. simpl. rewrite lookup_empty, Herrors.
        split; discriminate.
    + unfold resolveToken. destruct (decide _) as [Hph|]; [|done].
      by apply requestParams_plain in Hph.
    + simpl. unfold spread. by rewrite (left_id_L ∅ (∪)).
    + unfold scripted. rewrite nth_lookup, Hc2, Hc1, Hscript. done.
  - simpl. unfold transport_calls in *. rewrite omap_app. simpl.
    by rewrite Hc2, Hc1.
  - done.
  - simpl. congruence.
  - simpl. congruence.
Qed.

Lemma requestParams_continue (o : RequestOptions) (params continueParams : Params)
    (w : World) (key value : string) :
  key ≠ "format" →
  continueParams !! key = Some (PStr value) →
  requestParams o (spread params continueParams) w !! key = Some (PStr value).
Proof.
  intros Hkey Hvalue. unfold requestParams.
  rewrite transformParams_lookup, lookup_insert_ne by done.
  unfold spread at 1.
  erewrite lookup_union_Some_l by (by apply lookup_union_Some_l).
  done.
Qed.

Lemma plain_spread (params continueParams : Params) :
  plain params → plain continueParams → plain (spread params continueParams).
Proof.
  intros Hp Hc key Hkey. unfold spread in Hkey.
  apply lookup_union_Some_raw in Hkey as [Hkey|[_ Hkey]];
    [by apply Hc in Hkey|by apply Hp in Hkey].
Qed.

Lemma plain_singleton (key : string) (value : ParamValue) :
  value ≠ PTokenPlaceholder → plain {[ key := value ]}.
Proof.
  intros Hv k Hk. apply lookup_singleton_Some in Hk as [_ ?]. congruence.
Qed.

Lemma three_pages (fuel : nat) (params : Params) (options : Options) (w : World) :
  let o := composeOptions options w in
  tokenType o = None →
  method o = "GET" ∨ method o = "POST" →
  plain params → plain (defaultParams w) →
  transport_calls (trace w) = [] →
  ∃ w' call1 call2 call3,
    requestAndContinue
      (scripted (responses [continue_body "c" "x"; continue_body "c" "y";
                            empty_body]))
      (3 + fuel) params options w
    = Returned [continue_body "c" "x"; continue_body "c" "y"; empty_body] w'
    ∧ transport_calls (trace w') = [call1; call2; call3]
    ∧ sent_params call1 !! "continue" = None
    ∧ sent_params call2 !! "c" = Some (PStr "x")
    ∧ sent_params call3 !! "c" = Some (PStr "y").
Proof.
  intros o Htype Hmethod Hplain Hdefault Hfresh.
  set (script := responses [continue_body "c" "x"; continue_body "c" "y";
                            empty_body]).
  destruct (request_scripted_simple script (S fuel)
              (spread params {[ "continue" := PUndefined ]}) options w 10
              (continue_body "c" "x"))
    as (w1 & call1 & Hr1 & Hc1 & Hs1 & Hp1 & Ho1); try done.
  { apply plain_spread; [done|]. by apply plain_singleton. }
  { by rewrite Hfresh. }
  assert (composeOptions options w1 = o) as Ho1'.
  { unfold composeOptions. by rewrite Ho1. }
  destruct (request_scripted_simple script (S fuel)
              (spread params {[ "c" := PStr "x" ]}) options w1 10
              (continue_body "c" "y"))
    as (w2 & call2 & Hr2 & Hc2 & Hs2 & Hp2 & Ho2); try done.
  { by rewrite Ho1'. }
  { by rewrite Ho1'. }
  { apply plain_spread; [done|]. by apply plain_singleton. }
  { by rewrite Hp1. }
  { by rewrite Hc1, Hfresh. }
  assert (composeOptions options w2 = o) as Ho2'.
  { unfold composeOptions. by rewrite Ho2, Ho1. }
  destruct (request_scripted_simple script (S fuel)
              (spread params {[ "c" := PStr "y" ]}) options w2 10 empty_body)
    as (w3 & call3 & Hr3 & Hc3 & Hs3 & Hp3 & Ho3); try done.
  { by rewrite Ho2'. }
  { by rewrite Ho2'. }
  { apply plain_spread; [done|]. by apply plain_singleton. }
  { by rewrite Hp2, Hp1. }
  { by rewrite Hc2, Hc1, Hfresh. }
  exists w3, call1, call2, call3.
  split; [|repeat split].
  - unfold requestAndContinue.
    apply (requestAndContinue_from_pages _ _ _ _ _ _
             [(spread params {[ "continue" := PUndefined ]},
               continue_body "c" "x");
              (spread params {[ "c" := PStr "x" ]}, continue_body "c" "y");
              (spread params {[ "c" := PStr "y" ]}, empty_body)]);
      [|simpl; lia].
    eapply pages_next; [exact Hr1|reflexivity|].
    eapply pages_next; [exact Hr2|reflexivity|].
    eapply pages_last; [exact Hr3|reflexivity].
  - by rewrite Hc3, Hc2, Hc1, Hfresh.
  - rewrite Hs1. apply first_request_has_no_continue.
  - rewrite Hs2. by apply requestParams_continue.
  - rewrite Hs3. by apply requestParams_continue.
Qed.

(** C5: the first request of a paginated query carries no [continue]
    parameter; the requests and responses of [requestAndContinue] are
    exactly a chain in which each later request merges the [continue]
    object of the response before it into the parameters and which ends
    with the first response without a [continue] object; so a server that
    answers with [{continue:{c:"x"}}], [{continue:{c:"y"}}], [{}] makes it
    yield these three responses, the second request carrying [c=x] and the
    third [c=y]. *)
Theorem requestAndContinue_follows_continue transport (fuel : nat)
    (params : Params) (options : Options) (w : World) :
  (∀ o w0,
     requestParams o (spread params {[ "continue" := PUndefined ]}) w0
       !! "continue" = None)
  ∧ (∀ calls w',
       continuation_pages (request transport fuel) params options
         {[ "continue" := PUndefined ]} w calls w' →
       (length calls ≤ fuel)%nat →
       requestAndContinue transport fuel params options w
       = Returned (map snd calls) w')
  ∧ (∀ items w',
       requestAndContinue transport fuel params options w = Returned items w' →
       ∃ calls,
         continuation_pages (request transport fuel) params options
           {[ "continue" := PUndefined ]} w calls w'
         ∧ items = map snd calls)
  ∧ (tokenType (composeOptions options w) = None →
     method (composeOptions options w) = "GET"
     ∨ method (composeOptions options w) = "POST" →
     plain params → plain (defaultParams w) →
     transport_calls (trace w) = [] →
     ∃ w' call1 call2 call3,
       requestAndContinue
         (scripted (responses [continue_body "c" "x"; continue_body "c" "y";
                               empty_body]))
         (3 + fuel) params options w
       = Returned [continue_body "c" "x"; continue_body "c" "y"; empty_body] w'
       ∧ transport_calls (trace w') = [call1; call2; call3]
       ∧ sent_params call1 !! "continue" = None
       ∧ sent_params call2 !! "c" = Some (PStr "x")
       ∧ sent_params call3 !! "c" = Some (PStr "y")).
Proof.
  refine (conj _ (conj _ (conj _ _))).
  - intros. apply first_request_has_no_continue.
  - intros calls w' Hpages Hlen. unfold requestAndContinue.
    by apply requestAndContinue_from_pages.
  - intros items w' Hrun. by eapply requestAndContinue_from_returns.
  - apply three_pages.
Qed.

Lemma requestAndContinue_follows_continue_witness :
  ∃ w' call1 call2 call3,
    requestAndContinue
      (scripted (responses [continue_body "c" "x"; continue_body "c" "y";
                            empty_body]))
      3 {[ "action" := PStr "query" ]} no_options fresh_session
    = Returned [continue_body "c" "x"; continue_body "c" "y"; empty_body] w'
    ∧ transport_calls (trace w') = [call1; call2; call3]
    ∧ sent_params call1 !! "continue" = None
    ∧ sent_params call2 !! "c" = Some (PStr "x")
    ∧ sent_params call3 !! "c" = Some (PStr "y").
Proof.
  apply (proj2 (proj2 (proj2
           (requestAndContinue_follows_continue (scripted []) 0
              {[ "action" := PStr "query" ]} no_options fresh_session)))).
  - reflexivity.
  - left. reflexivity.
  - intros key Hkey. apply lookup_singleton_Some in Hkey as [_ Hkey].
    discriminate.
  - intros key Hkey. vm_compute in Hkey. discriminate.
  - reflexivity.
Defined.


(** ** User agent *)

Lemma ends_with_refl (s : string) : ends_with s s = true.
Proof. destruct s; simpl; by rewrite ?String.eqb_refl, ?Ascii.eqb_refl. Qed.

Lemma ends_with_app (s suffix : string) : ends_with (s +:+ suffix) suffix = true.
Proof.
  induction s as [|c s IH]; simpl.
  - apply ends_with_refl.
  - rewrite IH. apply orb_true_r.
Qed.

Lemma append_assoc (s t u : string) : s +:+ t +:+ u = (s +:+ t) +:+ u.
Proof.
  induction s as [|c s IH]; [done|].
  change (String c (s +:+ t +:+ u) = String c ((s +:+ t) +:+ u)).
  by rewrite IH.
Qed.

Lemma sent_userAgent_transportCall method params userAgent call :
  transportCall method params userAgent = Some call →
  sent_userAgent call = userAgent.
Proof.
  unfold transportCall. intros H.
  destruct (String.eqb method "GET"); [by simplify_eq|].
  destruct (String.eqb method "POST"); [|done].
  destruct (splitPostParameters params). by simplify_eq.
Qed.

Lemma session_inv_event (e : Event) (w : World) :
  is_transport e = false → is_DefaultUserAgentWarning e = false →
  session_inv w → session_inv (record e w).
Proof.
  intros Ht Hd [Hi [Hle Hflag]]. split; [|split].
  - unfold identified in *. simpl. unfold transport_calls in *.
    rewrite omap_app. simpl.
    destruct e; simpl in *; try discriminate; by rewrite app_nil_r.
  - unfold default_warnings in *. simpl.
    rewrite List.filter_app, length_app. simpl. rewrite Hd. simpl. lia.
  - unfold default_warnings in *. simpl. intros Hw.
    rewrite List.filter_app, length_app. simpl. rewrite Hd. simpl.
    specialize (Hflag Hw). lia.
Qed.

Lemma session_inv_advance (millis : Q) (w : World) :
  session_inv w → session_inv (advance millis w).
Proof. done. Qed.

Lemma session_inv_setTimeout (millis : Q) (w : World) :
  session_inv w → session_inv (setTimeout millis w).
Proof. intros H. unfold setTimeout. by apply session_inv_event. Qed.

Lemma session_inv_tokens (t : gmap string string) (w : World) :
  session_inv w → session_inv (with_tokens t w).
Proof. done. Qed.

Lemma session_inv_tokens_clear (w : World) :
  session_inv w → session_inv (tokens_clear w).
Proof. intros H. unfold tokens_clear. by apply session_inv_event. Qed.

Lemma session_inv_tokens_set (type token : string) (w : World) :
  session_inv w → session_inv (tokens_set type token w).
Proof. intros H. unfold tokens_set. by apply session_inv_event. Qed.

Lemma session_inv_call_warn (handler : WarnHandler) (e : Warning) (w : World) :
  e ≠ DefaultUserAgentWarning →
  session_inv w → session_inv (call_warn handler e w).
Proof.
  intros He H. revert e He.
  induction handler as [| id | handler IH]; intros e He; simpl.
  - apply session_inv_event; [done| |done]. by destruct e.
  - apply session_inv_event; [done| |done]. by destruct e.
  - destruct e as [ws| |]; [|done|by apply IH].
    destruct (0 <? _)%nat; [|done].
    apply IH. by destruct (_ =? _)%nat.
Qed.

Lemma session_inv_transport (call : TransportCall) (w : World) :
  ends_with (sent_userAgent call) DEFAULT_USER_AGENT = true →
  session_inv w → session_inv (record (Transport call) w).
Proof.
  intros Hua [Hi [Hle Hflag]]. split; [|split].
  - unfold identified in *. simpl. unfold transport_calls in *.
    rewrite omap_app. simpl. apply Forall_app. split; [done|].
    by apply Forall_singleton.
  - unfold default_warnings in *. simpl.
    rewrite List.filter_app, length_app. simpl. lia.
  - unfold default_warnings in *. simpl. intros Hw.
    rewrite List.filter_app, length_app. simpl.
    specialize (Hflag Hw). lia.
Qed.

(** Warnings of a decorated handler reach a plain handler unchanged in kind. *)
Lemma call_warn_default_count (handler : WarnHandler) (w : World) :
  default_warnings (trace (call_warn handler DefaultUserAgentWarning w))
  = S (default_warnings (trace w))
  ∧ transport_calls (trace (call_warn handler DefaultUserAgentWarning w))
    = transport_calls (trace w)
  ∧ warnedDefaultUserAgent (call_warn handler DefaultUserAgentWarning w)
    = warnedDefaultUserAgent w.
Proof.
  induction handler as [| id | handler IH]; simpl; [| |done];
    unfold default_warnings, transport_calls;
    rewrite List.filter_app, length_app, omap_app; simpl;
    rewrite app_nil_r; (split; [lia|done]).
Qed.

Lemma fullUserAgent_inv (o : RequestOptions) (w : World) :
  session_inv w →
  ∃ ua w', fullUserAgent o w = Returned ua w'
           ∧ ends_with ua DEFAULT_USER_AGENT = true
           ∧ session_inv w'.
Proof.
  intros Hinv. unfold fullUserAgent.
  destruct (given_userAgent o) as [ua|].
  - eexists _, _. split; [reflexivity|]. split; [|done].
    rewrite append_assoc. apply ends_with_app.
  - async. destruct (warnedDefaultUserAgent w) eqn:Hw; simpl.
    + eexists _, _. split; [reflexivity|]. split; [by vm_compute|done].
    + eexists _, _. split; [reflexivity|]. split; [by vm_compute|].
      destruct Hinv as [Hi [Hle Hflag]].
      destruct (call_warn_default_count (warn o) w) as (Hc & Ht & _).
      split; [|split]; simpl.
      * unfold identified in *. simpl. by rewrite Ht.
      * rewrite Hc, (Hflag Hw). lia.
      * done.
Qed.

Lemma warnMaxRetries_inv options (o : RequestOptions) (w : World) :
  session_inv w →
  ∃ w', warnMaxRetries options o w = Returned tt w' ∧ session_inv w'.
Proof.
  intros Hinv. unfold warnMaxRetries. async.
  destruct (_ && _); eexists; (split; [reflexivity|]); [|done].
  by apply session_inv_call_warn.
Qed.

Lemma getToken_pages_inv (request : Params → Options → Async Body) :
  (∀ params options w, session_inv w → after session_inv (request params options w)) →
  ∀ turns type params options continueParams w,
    session_inv w →
    after session_inv
      (getToken_pages request turns type params options continueParams w).
Proof.
  intros Hreq turns. induction turns as [|turns IH]; intros; [done|].
  simpl. apply after_bind.
  { unfold requestAndContinue_turn. apply after_bind; [by apply Hreq|].
    by intros. }
  intros [response next] w1 _ Hw1.
  destruct (response_token type response) as [token|].
  - by apply session_inv_tokens_set.
  - destruct next; [by apply IH|done].
Qed.

Lemma engine_inv transport (fuel : nat) :
  (∀ params options w,
     session_inv w → after session_inv (request transport fuel params options w))
  ∧ (∀ method params userAgent warn tokenType tokenName retryUntil maxlag
       readonly w,
       ends_with userAgent DEFAULT_USER_AGENT = true →
       session_inv w →
       after session_inv
         (internalRequest transport fuel method params userAgent warn
            tokenType tokenName retryUntil maxlag readonly w))
  ∧ (∀ type options w,
       session_inv w → after session_inv (getToken transport fuel type options w)).
Proof.
  induction fuel as [|fuel (IHrequest & IHinternal & IHtoken)]; [done|].
  refine (conj _ (conj _ _)).
  - intros params options w Hinv. simpl.
    apply after_bind; [done|]. intros o w0 _ Hw0.
    destruct (warnMaxRetries_inv options o w0 Hw0) as (w1 & Hw1 & Hinv1).
    apply after_bind; [by rewrite Hw1|]. intros [] w1' _ Hinv1'.
    destruct (fullUserAgent_inv o w1' Hinv1') as (ua & w2 & Hw2 & Hua & Hinv2).
    async. rewrite Hw2. by apply IHinternal.
  - intros method params userAgent warn tokenType tokenName retryUntil maxlag
      readonly w Hua Hinv. simpl.
    apply after_bind.
    { unfold resolveToken. destruct (decide _); [|done].
      destruct tokenType as [type|]; [|done].
      apply after_bind; [done|]. intros t w1 _ Hw1.
      apply after_bind; [by apply IHtoken|]. by intros. }
    intros tokenParams w1 _ Hw1. apply after_bind.
    { unfold send. destruct (transportCall _ _ _) as [call|] eqn:Hcall; [|done].
      apply sent_userAgent_transportCall in Hcall.
      unfold await_transport.
      destruct (transport _ _); simpl;
        apply session_inv_advance, session_inv_transport; congruence. }
    intros response w2 _ Hw2.
    apply evaluate_after; auto using session_inv_setTimeout,
      session_inv_tokens_clear.
    intros. by apply session_inv_call_warn.
  - intros type options w Hinv. simpl.
    apply after_bind; [done|]. intros cached w1 _ Hw1.
    apply after_bind; [|by intros].
    destruct cached; [done|].
    by apply getToken_pages_inv.
Qed.

Lemma call_warn_other_count (handler : WarnHandler) (e : Warning) (w : World) :
  e ≠ DefaultUserAgentWarning →
  default_warnings (trace (call_warn handler e w)) = default_warnings (trace w)
  ∧ warnedDefaultUserAgent (call_warn handler e w) = warnedDefaultUserAgent w
  ∧ now (call_warn handler e w) = now w.
Proof.
  revert e. induction handler as [| id | handler IH]; intros e He; simpl.
  - unfold default_warnings. rewrite List.filter_app, length_app.
    destruct e; simpl; try done; (split; [lia|done]).
  - unfold default_warnings. rewrite List.filter_app, length_app.
    destruct e; simpl; try done; (split; [lia|done]).
  - destruct e as [ws| |]; [|done|by apply IH].
    destruct (0 <? _)%nat; [|done].
    apply IH. by destruct (_ =? _)%nat.
Qed.

Lemma warnMaxRetries_count options (o : RequestOptions) (w : World) :
  ∃ w', warnMaxRetries options o w = Returned tt w'
        ∧ default_warnings (trace w') = default_warnings (trace w)
        ∧ warnedDefaultUserAgent w' = warnedDefaultUserAgent w.
Proof.
  unfold warnMaxRetries. async.
  destruct (_ && _); eexists; (split; [reflexivity|]); [|done].
  destruct (call_warn_other_count (warn o) MaxRetriesWarning w) as (? & ? & _);
    done.
Qed.

(** C10, as the code has it: [request] hands to [internalRequest], and so
    to the transport, the given User-Agent followed by a space and the
    library's identifier when the composed [userAgent] option is a nonempty
    string, and the library's identifier alone when the option is missing
    or empty; in the second case the default User-Agent warning is given
    unless the session's flag is set, and the flag is set. Every transport
    call of a session carries a User-Agent ending with the library's
    identifier, and the warning is given at most once. *)
Theorem request_userAgent transport (fuel : nat) (params : Params)
    (options : Options) (w : World) :
  let o := composeOptions options w in
  let dispatch userAgent :=
    internalRequest transport fuel (method o) (requestParams o params w)
      userAgent (actualWarn o) (tokenType o) (tokenName o)
      (now w + maxRetriesSeconds o * 1000)%Q (retryAfterMaxlagSeconds o)
      (retryAfterReadonlySeconds o) in
  (∀ given, userAgent o = Some given → given ≠ "" →
     ∃ w1,
       request transport (S fuel) params options w
       = dispatch (given +:+ " " +:+ DEFAULT_USER_AGENT) w1
       ∧ default_warnings (trace w1) = default_warnings (trace w))
  ∧ (userAgent o = None ∨ userAgent o = Some "" →
     ∃ w1,
       request transport (S fuel) params options w
       = dispatch DEFAULT_USER_AGENT w1
       ∧ default_warnings (trace w1)
         = (default_warnings (trace w)
            + if warnedDefaultUserAgent w then 0 else 1)%nat
       ∧ warnedDefaultUserAgent w1 = true)
  ∧ (∀ method sent userAgent call,
       transportCall method sent userAgent = Some call →
       sent_userAgent call = userAgent)
  ∧ (identified w ∧ warned_once w →
     after (fun w' => identified w' ∧ warned_once w')
       (request transport (S fuel) params options w))
  ∧ (∀ apiUrl defaultParams defaultOptions t,
       identified (Session apiUrl defaultParams defaultOptions t)
       ∧ warned_once (Session apiUrl defaultParams defaultOptions t)).
Proof.
  intros o dispatch.
  destruct (warnMaxRetries_count options o w) as (w1 & Hw1 & Hc1 & Hf1).
  destruct (warnMaxRetries_quiet options o w) as (w1' & Hw1' & Hq1).
  rewrite Hw1 in Hw1'. injection Hw1' as <-.
  destruct Hq1 as (_ & Hp1 & _ & Hn1).
  assert (∀ w', defaultParams w' = defaultParams w →
                requestParams o params w' = requestParams o params w) as Hparams.
  { intros w' Hw'. unfold requestParams. by rewrite Hw'. }
  refine (conj _ (conj _ (conj _ (conj _ _)))).
  - intros given Hgiven Hne. exists w1. split; [|done].
    simpl. async. fold o. unfold effect, read in Hw1. rewrite Hw1. cbv beta.
    unfold fullUserAgent, given_userAgent. rewrite Hgiven.
    destruct given; [done|]. simpl.
    by rewrite Hparams, Hn1.
  - intros Hnone.
    assert (given_userAgent o = None) as Hgiven.
    { unfold given_userAgent. by destruct Hnone as [-> | ->]. }
    destruct (warnedDefaultUserAgent w1) eqn:Hwarned.
    + exists w1. split; [|split; [|done]].
      * simpl. async. fold o. unfold effect, read in Hw1. rewrite Hw1.
        cbv beta. unfold fullUserAgent. rewrite Hgiven. async.
        cbv beta. rewrite Hwarned. simpl. by rewrite Hparams, Hn1.
      * rewrite Hc1, <- Hf1. lia.
    + destruct (call_warn_default_count (warn o) w1) as (Hc & Ht & Hf).
      destruct (quiet_call_warn (warn o) DefaultUserAgentWarning w1 w1)
        as (_ & Hp2 & _ & Hn2); [done|].
      exists (with_warnedDefaultUserAgent true
                (call_warn (warn o) DefaultUserAgentWarning w1)).
      split; [|split; [|done]].
      * simpl. async. fold o. unfold effect, read in Hw1. rewrite Hw1.
        cbv beta. unfold fullUserAgent. rewrite Hgiven. async.
        cbv beta. rewrite Hwarned. cbn [negb]. cbv beta.
        set (w2 := with_warnedDefaultUserAgent true
                     (call_warn (warn o) DefaultUserAgentWarning w1)).
        assert (now w2 = now w) as -> by exact (eq_trans Hn2 Hn1).
        rewrite Hparams by exact (eq_trans Hp2 Hp1). done.
      * change (default_warnings
                  (trace (call_warn (warn o) DefaultUserAgentWarning w1))
                = (default_warnings (trace w)
                   + if warnedDefaultUserAgent w then 0 else 1)%nat).
        rewrite Hc, Hc1, <- Hf1. lia.
  - intros method sent ua call. apply sent_userAgent_transportCall.
  - intros Hinv. by apply (engine_inv transport (S fuel)).
  - intros. unfold identified, warned_once, default_warnings, Session. simpl.
    split; [constructor|]. split; [lia|done].
Qed.

Lemma request_userAgent_witness :
  ∃ w1,
    request (scripted []) 1 {[ "action" := PStr "edit" ]} edit_options
      session_with_token
    = internalRequest (scripted []) 0 "POST" edit_params
        ("example-tool" +:+ " " +:+ DEFAULT_USER_AGENT) console_warn
        (Some "csrf") "token" (65000 # 1)%Q (5 # 1)%Q (30 # 1)%Q w1
    ∧ default_warnings (trace w1) = 0%nat.
Proof.
  exact (proj1 (request_userAgent (scripted []) 0 {[ "action" := PStr "edit" ]}
                  edit_options session_with_token)
           "example-tool" eq_refl ltac:(discriminate)).
Defined.

(** C10 as stated fails: a [userAgent] option that is supplied as the empty
    string is treated like a missing one, so the header is the library's
    identifier alone, without the supplied string and the space. *)
Lemma empty_userAgent_counterexample :
  ∃ w',
    request (scripted (responses [done_body])) 2 {[ "action" := PStr "query" ]}
      empty_userAgent_options fresh_session
    = Returned done_body w'
    ∧ map sent_userAgent (transport_calls (trace w')) = [DEFAULT_USER_AGENT]
    ∧ DEFAULT_USER_AGENT ≠ "" +:+ " " +:+ DEFAULT_USER_AGENT
    ∧ default_warnings (trace w') = 1%nat.
Proof.
  eexists; split; [vm_compute; reflexivity|by vm_compute].
Qed.

(** ** Request combiner *)

Lemma compatible_spec (p q : Params) :
  Combiner.compatible p q = true
  ↔ ∀ key v1 v2, p !! key = Some v1 → q !! key = Some v2 → v1 = v2.
Proof.
  unfold Combiner.compatible. rewrite bool_decide_eq_true.
  apply map_agree_spec.
Qed.

Lemma compatible_union_comm (p q : Params) :
  Combiner.compatible p q = true → p ∪ q = q ∪ p.
Proof.
  intros H. apply map_eq. intros key.
  rewrite !lookup_union.
  destruct (p !! key) as [v1|] eqn:Hp, (q !! key) as [v2|] eqn:Hq; simpl;
    try done.
  by rewrite (proj1 (compatible_spec p q) H key v1 v2 Hp Hq).
Qed.

(** C9: two GET requests of one scheduling turn whose normalized parameters
    agree on every shared key (as they do when the key sets are disjoint or
    the parameters identical) become one transport call with the union of
    the normalized parameters, and both callers get the outcome of that
    call, response or failure; when a shared key has two different
    normalized values, there are two transport calls, one for each. *)
Theorem combine_pair (perform : TransportCall → Error + Body)
    (userAgent : string) (caller1 caller2 : nat) (params1 params2 : Params) :
  let normalized1 := transformParams params1 in
  let normalized2 := transformParams params2 in
  let requests := [Combiner.mkRequest caller1 "GET" params1;
                   Combiner.mkRequest caller2 "GET" params2] in
  let merged := internalGet (normalized1 ∪ normalized2) userAgent in
  ((∀ key v1 v2, normalized1 !! key = Some v1 → normalized2 !! key = Some v2 →
                 v1 = v2) →
   Combiner.calls userAgent requests = [merged]
   ∧ Combiner.deliveries perform userAgent requests
     = [(caller1, perform merged); (caller2, perform merged)]
   ∧ normalized1 ∪ normalized2 = normalized2 ∪ normalized1)
  ∧ ((∃ key v1 v2, normalized1 !! key = Some v1 ∧ normalized2 !! key = Some v2
                   ∧ v1 ≠ v2) →
     Combiner.calls userAgent requests
     = [internalGet normalized1 userAgent; internalGet normalized2 userAgent]
     ∧ Combiner.deliveries perform userAgent requests
       = [(caller1, perform (internalGet normalized1 userAgent));
          (caller2, perform (internalGet normalized2 userAgent))])
  ∧ (dom normalized1 ## dom normalized2 →
     Combiner.compatible normalized1 normalized2 = true)
  ∧ (normalized1 = normalized2 →
     Combiner.compatible normalized1 normalized2 = true).
Proof.
  intros normalized1 normalized2 requests merged.
  refine (conj _ (conj _ (conj _ _))).
  - intros Hagree. apply compatible_spec in Hagree.
    unfold Combiner.calls, Combiner.deliveries. simpl.
    fold normalized1 normalized2. rewrite Hagree. simpl.
    repeat split. by apply compatible_union_comm.
  - intros (key & v1 & v2 & H1 & H2 & Hne).
    assert (Combiner.compatible normalized1 normalized2 = false) as Hconflict.
    { apply not_true_is_false. intros H.
      apply Hne. exact (proj1 (compatible_spec _ _) H key v1 v2 H1 H2). }
    unfold Combiner.calls, Combiner.deliveries. simpl.
    fold normalized1 normalized2. rewrite Hconflict. done.
  - intros Hdisjoint. apply compatible_spec. intros key v1 v2 H1 H2.
    exfalso. apply (Hdisjoint key); apply elem_of_dom; eauto.
  - intros Heq. apply compatible_spec. intros key v1 v2 H1 H2. congruence.
Qed.

Lemma combine_pair_witness :
  Combiner.calls DEFAULT_USER_AGENT
    [Combiner.mkRequest 1 "GET" {[ "a" := PNum 1 ]};
     Combiner.mkRequest 2 "GET" {[ "a" := PNum 1; "b" := PNum 2 ]}]
  = [internalGet {[ "a" := PStr "1"; "b" := PStr "2" ]} DEFAULT_USER_AGENT]
  ∧ Combiner.deliveries echo DEFAULT_USER_AGENT
      [Combiner.mkRequest 1 "GET" {[ "a" := PNum 1 ]};
       Combiner.mkRequest 2 "GET" {[ "a" := PNum 1; "b" := PNum 2 ]}]
    = [(1%nat, echo (internalGet {[ "a" := PStr "1"; "b" := PStr "2" ]}
                       DEFAULT_USER_AGENT));
       (2%nat, echo (internalGet {[ "a" := PStr "1"; "b" := PStr "2" ]}
                       DEFAULT_USER_AGENT))]
  ∧ Combiner.calls DEFAULT_USER_AGENT
      [Combiner.mkRequest 1 "GET" {[ "a" := PNum 1 ]};
       Combiner.mkRequest 2 "GET" {[ "a" := PNum 2 ]}]
    = [internalGet {[ "a" := PStr "1" ]} DEFAULT_USER_AGENT;
       internalGet {[ "a" := PStr "2" ]} DEFAULT_USER_AGENT].
Proof.
  pose proof (proj1 (combine_pair echo DEFAULT_USER_AGENT 1 2
                       {[ "a" := PNum 1 ]} {[ "a" := PNum 1; "b" := PNum 2 ]}))
    as Hmerge.
  pose proof (proj1 (proj2 (combine_pair echo DEFAULT_USER_AGENT 1 2
                              {[ "a" := PNum 1 ]} {[ "a" := PNum 2 ]})))
    as Hconflict.
  refine (conj _ (conj _ _)).
  - refine (proj1 (Hmerge _)).
    intros key v1 v2 H1 H2.
    destruct (decide (key = "a")) as [->|Hkey].
    + vm_compute in H1, H2. congruence.
    + rewrite transformParams_lookup, lookup_singleton_ne in H1 by done.
      discriminate.
  - refine (proj1 (proj2 (Hmerge _))).
    intros key v1 v2 H1 H2.
    destruct (decide (key = "a")) as [->|Hkey].
    + vm_compute in H1, H2. congruence.
    + rewrite transformParams_lookup, lookup_singleton_ne in H1 by done.
      discriminate.
  - refine (proj1 (Hconflict _)).
    exists "a", (PStr "1"), (PStr "2"). by vm_compute.
Defined.

(** * Further properties *)

(** ** Parameters *)

(** X1: [splitPostParameters] sorts every parameter into exactly one of the
    two objects: [action] and [origin] go to the URL, all the others to the
    body, and nothing is lost or changed. *)
Theorem splitPostParameters_partition (params : Params) :
  let '(urlParams, bodyParams) := splitPostParameters params in
  urlParams ∪ bodyParams = params
  ∧ urlParams ##ₘ bodyParams
  ∧ (∀ key, is_Some (urlParams !! key) → key = "action" ∨ key = "origin")
  ∧ bodyParams !! "action" = None
  ∧ bodyParams !! "origin" = None
  ∧ urlParams !! "action" = params !! "action"
  ∧ urlParams !! "origin" = params !! "origin".
Proof.
  unfold splitPostParameters.
  assert (∀ key, filter (λ kv : string * ParamValue, is_url_param kv.1 = true)
                   params !! key
                 = if is_url_param key then params !! key else None) as Hurl.
  { intros key. destruct (is_url_param key) eqn:E.
    - destruct (params !! key) as [v|] eqn:Hv.
      + by apply map_lookup_filter_Some.
      + apply map_lookup_filter_None. by left.
    - apply map_lookup_filter_None. right. intros v _. simpl. congruence. }
  assert (∀ key, filter (λ kv : string * ParamValue, is_url_param kv.1 = false)
                   params !! key
                 = if is_url_param key then None else params !! key) as Hbody.
  { intros key. destruct (is_url_param key) eqn:E.
    - apply map_lookup_filter_None. right. intros v _. simpl. congruence.
    - destruct (params !! key) as [v|] eqn:Hv.
      + by apply map_lookup_filter_Some.
      + apply map_lookup_filter_None. by left. }
  refine (conj _ (conj _ (conj _ (conj _ (conj _ (conj _ _)))))).
  - apply map_eq. intros key. rewrite lookup_union, Hurl, Hbody.
    destruct (is_url_param key), (params !! key); done.
  - apply map_disjoint_spec. intros key v1 v2.
    rewrite Hurl, Hbody. by destruct (is_url_param key).
  - intros key [v Hv]. rewrite Hurl in Hv.
    unfold is_url_param in Hv.
    destruct (String.eqb key "action") eqn:Ea.
    + left. by apply String.eqb_eq.
    + destruct (String.eqb key "origin") eqn:Eo; [|done].
      right. by apply String.eqb_eq.
  - by rewrite Hbody.
  - by rewrite Hbody.
  - by rewrite Hurl.
  - by rewrite Hurl.
Qed.

Lemma transformParamValue_kinds (value : ParamValue) :
  transformParamValue value = PUndefined
  ∨ (∃ s, transformParamValue value = PStr s)
  ∨ transformParamValue value = PTokenPlaceholder.
Proof. destruct value as [| | [|] | | | | |]; simpl; eauto. Qed.

(** X2: the values of a normalized parameter object are strings, or the
    token placeholder that was put in; so normalizing a normalized object
    changes nothing. *)
Theorem transformParams_idempotent (params : Params) :
  (∀ key value, transformParams params !! key = Some value →
     (∃ s, value = PStr s) ∨ value = PTokenPlaceholder)
  ∧ transformParams (transformParams params) = transformParams params.
Proof.
  assert (∀ key value, transformParams params !! key = Some value →
            (∃ s, value = PStr s) ∨ value = PTokenPlaceholder) as Hkinds.
  { intros key value. rewrite transformParams_lookup.
    destruct (params !! key) as [v|]; [|done]. simpl.
    destruct (decide _) as [|Hdef]; [done|]. intros [= <-].
    destruct (transformParamValue_kinds v) as [?|[?|?]]; eauto. done. }
  split; [exact Hkinds|].
  apply map_eq. intros key.
  rewrite (transformParams_lookup (transformParams params)).
  destruct (transformParams params !! key) as [value|] eqn:Hvalue; [|done].
  destruct (Hkinds key value Hvalue) as [[s ->]| ->]; done.
Qed.

(** X3: normalization drops a key only when its value is [false], [null] or
    [undefined]; strings (also the empty one), numbers, [true], arrays and
    sets (also empty ones) keep their key. *)
Theorem transformParams_keeps (params : Params) (key : string) :
  transformParams params !! key = None
  ↔ params !! key = None ∨ params !! key = Some (PBool false)
    ∨ params !! key = Some PNull ∨ params !! key = Some PUndefined.
Proof.
  rewrite transformParams_lookup.
  destruct (params !! key) as [value|]; simpl; [|by intuition].
  destruct value as [| | [|] | | | | |]; simpl;
    split; intros H; try done; try (by eauto);
    by destruct H as [?|[?|[?|?]]].
Qed.

Lemma includes_char (s : string) (c : ascii) :
  includes s (String c "") = has_char c s.
Proof.
  induction s as [|c' s IH]; [done|].
  simpl. rewrite IH.
  destruct (ascii_dec c c') as [->|Hne].
  - rewrite Ascii.eqb_refl. by destruct s.
  - destruct (Ascii.eqb c' c) eqn:E; [|done].
    apply Ascii.eqb_eq in E. congruence.
Qed.

Lemma pipe_join_splits (value : list Scalar) :
  value ≠ [] →
  existsb (fun element => includes (ToString element) PIPE) value = false →
  transformParamArray value = join PIPE value
  ∧ split_on "|" (join PIPE value) = map ToString value.
Proof.
  intros Hnonempty Hplain. unfold transformParamArray. rewrite Hplain.
  split; [done|].
  unfold join, PIPE. apply split_on_join_strings; [by destruct value|].
  apply Forall_map. apply Forall_forall. intros element Hin.
  simpl. rewrite <- includes_char.
  apply not_true_is_false. intros Hpipe.
  assert (existsb (fun element => includes (ToString element) PIPE) value
          = true) as Htrue; [|congruence].
  apply existsb_exists. exists element. split; [|done].
  by apply list_elem_of_In.
Qed.

(** X4: a nonempty collection in which no element contains [|] is sent
    without a leading unit separator, and splitting the value that is sent
    on [|] gives the elements' string forms back. *)
Theorem transformParamArray_pipe_round_trip (value : list Scalar)
    (Hnonempty : value ≠ [])
    (Hplain : existsb (fun element => includes (ToString element) PIPE) value
              = false) :
  split_on "|" (transformParamArray value) = map ToString value.
Proof.
  destruct (pipe_join_splits value Hnonempty Hplain)
    as [-> Hsplit].
  exact Hsplit.
Qed.

Lemma transformParamArray_pipe_round_trip_witness :
  split_on "|" (transformParamArray plain_values) = ["a"; "7"].
Proof.
  apply (transformParamArray_pipe_round_trip plain_values).
  - discriminate.
  - reflexivity.
Defined.






(** ** Exported helpers and the constructor *)

(** X6: [responseBoolean] is true for every string (the empty string of
    formatversion 1 included), for [true], for a number other than 0 and for
    an object or array; it is false for a missing value, [null], [false]
    and 0. *)
Theorem responseBoolean_values :
  responseBoolean None = false
  ∧ responseBoolean (Some JNull) = false
  ∧ (∀ b, responseBoolean (Some (JBool b)) = b)
  ∧ (∀ s, responseBoolean (Some (JStr s)) = true)
  ∧ (∀ n, responseBoolean (Some (JNum n)) = negb (n =? 0))
  ∧ (∀ l, responseBoolean (Some (JArr l)) = true)
  ∧ (∀ o, responseBoolean (Some (JObj o)) = true).
Proof.
  repeat split.
  - by intros [].
  - intros s. unfold responseBoolean. simpl.
    destruct (String.eqb s "") eqn:E; [|done].
    apply String.eqb_eq in E. by subst.
  - intros n. unfold responseBoolean. simpl. by destruct (n =? 0).
Qed.




Lemma includes_app_r (s t needle : string) :
  includes t needle = true → includes (s +:+ t) needle = true.
Proof.
  intros H. induction s as [|c s IH]; [done|].
  change (includes (String c (s +:+ t)) needle = true).
  simpl. rewrite IH. apply orb_true_r.
Qed.

(** X8: the constructor leaves an endpoint that contains a slash as it is
    and expands a bare domain to [https://<domain>/w/api.php]; the endpoint
    of a session always contains a slash, so a session made from the
    endpoint of another has the same endpoint. A new session has no token
    and has not warned. *)
Theorem Session_endpoint (url : string) (defaultParams : Params)
    (defaultOptions : Options) (t : Q) :
  let session := Session url defaultParams defaultOptions t in
  (includes url "/" = true → apiUrl session = url)
  ∧ (includes url "/" = false →
     apiUrl session = "https://" +:+ url +:+ "/w/api.php")
  ∧ includes (apiUrl session) "/" = true
  ∧ apiUrl (Session (apiUrl session) defaultParams defaultOptions t)
    = apiUrl session
  ∧ tokens session = ∅
  ∧ warnedDefaultUserAgent session = false
  ∧ trace session = [].
Proof.
  intros session.
  assert (includes (apiUrl session) "/" = true) as Hslash.
  { unfold session, Session. simpl.
    destruct (includes url "/") eqn:E; [done|].
    change (includes ("https:/" +:+ String "/" (url +:+ "/w/api.php")) "/"
            = true).
    apply includes_app_r. rewrite includes_char.
    apply orb_true_iff. left. apply Ascii.eqb_refl. }
  refine (conj _ (conj _ (conj Hslash (conj _ _)))).
  - intros H. unfold session, Session. simpl. by rewrite H.
  - intros H. unfold session, Session. simpl. by rewrite H.
  - change (apiUrl (Session (apiUrl session) defaultParams defaultOptions t))
      with (if includes (apiUrl session) "/" then apiUrl session
            else "https://" +:+ apiUrl session +:+ "/w/api.php").
    by rewrite Hslash.
  - done.
Qed.

(** ** Truncated-result warnings *)

Lemma filter_length_eq {A} (f : A → bool) (l : list A) :
  length (List.filter f l) = length l → List.filter f l = l.
Proof.
  induction l as [|x l IH]; [done|]. simpl.
  destruct (f x); simpl.
  - intros [= H]. by rewrite IH.
  - intros H. pose proof (List.filter_length_le f l). lia.
Qed.

Lemma filter_filter_same {A} (f : A → bool) (l : list A) :
  List.filter f (List.filter f l) = List.filter f l.
Proof.
  induction l as [|x l IH]; [done|]. simpl.
  destruct (f x) eqn:E; simpl; by rewrite ?E, IH.
Qed.

Lemma call_warn_dropping (warn : WarnHandler) (ws : list Obj) (w : World) :
  call_warn (makeWarnDroppingTruncatedResultWarning warn) (ApiWarnings ws) w
  = match List.filter notTruncatedResultWarning ws with
    | [] => w
    | kept => call_warn warn (ApiWarnings kept) w
    end.
Proof.
  simpl.
  destruct (List.filter notTruncatedResultWarning ws) as [|k kept] eqn:E;
    [done|].
  change (0 <? length (k :: kept))%nat with true. cbv iota.
  destruct (length (k :: kept) =? length ws)%nat eqn:El; [|done].
  apply Nat.eqb_eq in El. rewrite <- E in El.
  apply filter_length_eq in El. by rewrite <- E, El.
Qed.

(** X9: the handler made by [makeWarnDroppingTruncatedResultWarning] does
    not call the original handler when every warning is a truncated-result
    warning; otherwise it calls it once with the other warnings, in their
    order; an error that is no [ApiWarnings] is passed on as it is; and
    decorating a decorated handler changes nothing. *)
Theorem makeWarnDroppingTruncatedResultWarning_drops (warn : WarnHandler)
    (ws : list Obj) (w : World) :
  let dropping := makeWarnDroppingTruncatedResultWarning warn in
  let kept := List.filter notTruncatedResultWarning ws in
  (kept = [] → call_warn dropping (ApiWarnings ws) w = w)
  ∧ (kept ≠ [] →
     call_warn dropping (ApiWarnings ws) w = call_warn warn (ApiWarnings kept) w)
  ∧ call_warn dropping DefaultUserAgentWarning w
    = call_warn warn DefaultUserAgentWarning w
  ∧ call_warn dropping MaxRetriesWarning w = call_warn warn MaxRetriesWarning w
  ∧ (∀ e, call_warn (makeWarnDroppingTruncatedResultWarning dropping) e w
          = call_warn dropping e w).
Proof.
  intros dropping kept.
  refine (conj _ (conj _ (conj eq_refl (conj eq_refl _)))).
  - intros Hkept. unfold dropping. rewrite call_warn_dropping.
    fold kept. by rewrite Hkept.
  - intros Hkept. unfold dropping. rewrite call_warn_dropping.
    fold kept. by destruct kept.
  - intros [ws'| |]; [|done|done].
    rewrite (call_warn_dropping dropping).
    unfold dropping. rewrite !call_warn_dropping.
    destruct (List.filter notTruncatedResultWarning ws') as [|k rest] eqn:E;
      [done|].
    rewrite call_warn_dropping, <- E, filter_filter_same. by rewrite E.
Qed.

Lemma substring_all (s : string) : substring 0 (String.length s) s = s.
Proof. induction s as [|c s IH]; [done|]. simpl. by rewrite IH. Qed.

Lemma drop_prefix_app (p s : string) : drop_prefix p (p +:+ s) = Some s.
Proof.
  unfold drop_prefix.
  assert (String.prefix p (p +:+ s) = true) as ->.
  { induction p as [|c p IH]; simpl; [by destruct s|].
    destruct (ascii_dec c c); [exact IH|done]. }
  f_equal. induction p as [|c p IH].
  - change ("" +:+ s) with s. change (String.length "") with 0%nat.
    rewrite Nat.sub_0_r. apply substring_all.
  - exact IH.
Qed.

Lemma no_line_terminator_app (s t : string) :
  no_line_terminator (s +:+ t) = no_line_terminator s && no_line_terminator t.
Proof.
  induction s as [|c s IH]; [done|].
  change (no_line_terminator (String c (s +:+ t))
          = no_line_terminator (String c s) && no_line_terminator t).
  simpl. rewrite IH. by rewrite !andb_assoc.
Qed.

Lemma TRUNCATED_RESULT_matches (limit : string) :
  no_line_terminator limit = true →
  TRUNCATED_RESULT_test
    ("This result was truncated because it would otherwise be larger than the limit of "
       +:+ limit +:+ " bytes") = true
  ∧ TRUNCATED_RESULT_test
      ("This result was truncated because it would otherwise  be larger than the limit of "
         +:+ limit +:+ " bytes") = true.
Proof.
  intros Hlimit. unfold TRUNCATED_RESULT_test.
  split.
  - rewrite drop_prefix_app, ends_with_app, no_line_terminator_app, Hlimit.
    done.
  - rewrite (drop_prefix_app
               "This result was truncated because it would otherwise  be larger than the limit of ").
    rewrite ends_with_app, no_line_terminator_app, Hlimit.
    simpl. by rewrite ?orb_true_r.
Qed.

(** X10: a warning with a code is a truncated-result warning exactly when
    the code is [truncatedresult], whatever its text says; a warning
    without a code is one when its text (the [warnings] member, or [*] when
    that is missing) is the truncation message, with one or two spaces
    after "otherwise" and a limit of ASCII characters without a line
    break. *)
Theorem notTruncatedResultWarning_cases (warning : Obj) :
  (∀ code, obj_get warning "code" = Some (JStr code) → code ≠ "" →
     notTruncatedResultWarning warning
     = negb (String.eqb code "truncatedresult"))
  ∧ (∀ limit spaces text,
       obj_get warning "code" = None →
       ascii_only limit = true →
       no_line_terminator limit = true →
       spaces = " " ∨ spaces = "  " →
       text = "This result was truncated because it would otherwise"
                +:+ spaces +:+ "be larger than the limit of "
                +:+ limit +:+ " bytes" →
       obj_get warning "warnings" = Some (JStr text)
       ∨ (obj_get warning "warnings" = None
          ∧ obj_get warning "*" = Some (JStr text)) →
       notTruncatedResultWarning warning = false).
Proof.
  split.
  - intros code Hcode Hne. unfold notTruncatedResultWarning.
    rewrite Hcode. simpl.
    destruct (String.eqb code "") eqn:E; [|done].
    by apply String.eqb_eq in E.
  - intros limit spaces text Hcode _ Hlimit Hspaces -> Htext.
    destruct (TRUNCATED_RESULT_matches limit Hlimit) as [Hone Htwo].
    unfold notTruncatedResultWarning. rewrite Hcode. simpl.
    assert (TRUNCATED_RESULT_test
              ("This result was truncated because it would otherwise"
                 +:+ spaces +:+ "be larger than the limit of "
                 +:+ limit +:+ " bytes") = true) as Hmatch.
    { destruct Hspaces as [-> | ->]; [exact Hone|exact Htwo]. }
    assert (∀ s, s ≠ "" → truthy (Some (JStr s)) = true) as Htruthy.
    { intros s Hs. simpl. destruct (String.eqb s "") eqn:E; [|done].
      by apply String.eqb_eq in E. }
    destruct Htext as [Hw | [Hw Hstar]].
    + rewrite Hw, Htruthy by (by destruct Hspaces as [-> | ->]).
      simpl. by rewrite Hmatch.
    + rewrite Hw, Hstar. simpl. by rewrite Hmatch.
Qed.

(** ** More on the dispatch engine *)

(** What [request] does before it calls [internalRequest]: at most
    warnings. *)
Lemma request_dispatch transport (fuel : nat) (params : Params)
    (options : Options) (w : World) :
  let o := composeOptions options w in
  ∃ agent w1,
    request transport (S fuel) params options w
    = internalRequest transport fuel (method o) (requestParams o params w)
        agent (actualWarn o) (tokenType o) (tokenName o)
        (now w + maxRetriesSeconds o * 1000)%Q (retryAfterMaxlagSeconds o)
        (retryAfterReadonlySeconds o) w1
    ∧ quiet w w1
    ∧ same_cache w w1
    ∧ agent = match given_userAgent o with
              | Some given => given +:+ " " +:+ DEFAULT_USER_AGENT
              | None => DEFAULT_USER_AGENT
              end.
Proof.
  intros o.
  destruct (warnMaxRetries_quiet options o w) as (w1 & Hw1 & Hq1).
  destruct (fullUserAgent_quiet o w1) as (ua & w2 & Hw2 & Hq2).
  pose proof (warnMaxRetries_same_cache w options o w (same_cache_refl w))
    as Hs1. rewrite Hw1 in Hs1. simpl in Hs1.
  pose proof (fullUserAgent_same_cache w o w1 Hs1) as Hs2.
  rewrite Hw2 in Hs2. simpl in Hs2.
  exists ua, w2.
  destruct Hq1 as (Hc1 & Hp1 & Ho1 & Hn1).
  destruct Hq2 as (Hc2 & Hp2 & Ho2 & Hn2).
  refine (conj _ (conj _ (conj Hs2 _))).
  - simpl. async. fold o. unfold effect, read in Hw1. rewrite Hw1. cbv beta.
    rewrite Hw2.
    assert (requestParams o params w2 = requestParams o params w) as ->.
    { unfold requestParams. by rewrite Hp2, Hp1. }
    by rewrite Hn2, Hn1.
  - repeat split; congruence.
  - unfold fullUserAgent in Hw2.
    destruct (given_userAgent o) as [given|].
    + unfold mret, Async_ret in Hw2. by simplify_eq.
    + async in Hw2. cbv beta in Hw2.
      destruct (negb (warnedDefaultUserAgent w1)); by simplify_eq.
Qed.

Lemma internalRequest_step transport (fuel : nat) method params userAgent
    warn tokenType tokenName retryUntil maxlag readonly :
  internalRequest transport (S fuel) method params userAgent warn tokenType
    tokenName retryUntil maxlag readonly
  = (tokenParams ←
       resolveToken (getToken transport fuel) params userAgent warn
         tokenType tokenName retryUntil maxlag readonly;
     response ←
       send transport method (spread params (default ∅ tokenParams))
         userAgent;
     evaluate warn retryUntil maxlag readonly
       (bool_decide (is_Some tokenParams))
       (internalRequest transport fuel method params userAgent warn
          tokenType tokenName retryUntil maxlag readonly)
       response).
Proof. done. Qed.

Lemma transportCall_sent_params method params userAgent call :
  transportCall method params userAgent = Some call →
  sent_params call = params
  ∧ (method = "GET" ∧ call = internalGet params userAgent ∨ method = "POST").
Proof.
  unfold transportCall. intros H.
  destruct (String.eqb method "GET") eqn:Eget.
  - apply String.eqb_eq in Eget. simplify_eq. split; [done|]. by left.
  - destruct (String.eqb method "POST") eqn:Epost; [|done].
    apply String.eqb_eq in Epost. subst method.
    destruct (sent_params_transportCall "POST" params userAgent)
      as (call' & Hcall' & Hsent); [by right|].
    unfold transportCall in Hcall'.
    change (String.eqb "POST" "GET") with false in Hcall'.
    change (String.eqb "POST" "POST") with true in Hcall'.
    cbv iota in Hcall'. rewrite H in Hcall'.
    split; [|by right]. congruence.
Qed.

(** A property of the world that no step of the engine can break, once the
    transport calls keep it. *)
Section Invariant.

Variable transport : list Event → TransportCall → TransportResult.
Variable P : World → Prop.

Hypothesis P_timeout : ∀ millis w, P w → P (setTimeout millis w).
Hypothesis P_warn : ∀ handler e w, P w → P (call_warn handler e w).
Hypothesis P_flag : ∀ b w, P w → P (with_warnedDefaultUserAgent b w).
Hypothesis P_clear : ∀ w, P w → P (tokens_clear w).
Hypothesis P_set : ∀ type token w, P w → P (tokens_set type token w).

Lemma request_after (fuel : nat) (params : Params) (options : Options)
    (w : World) :
  P w →
  (∀ agent w1,
     P w1 →
     after P
       (internalRequest transport fuel (method (composeOptions options w))
          (requestParams (composeOptions options w) params w) agent
          (actualWarn (composeOptions options w))
          (tokenType (composeOptions options w))
          (tokenName (composeOptions options w))
          (now w + maxRetriesSeconds (composeOptions options w) * 1000)%Q
          (retryAfterMaxlagSeconds (composeOptions options w))
          (retryAfterReadonlySeconds (composeOptions options w)) w1)) →
  after P (request transport (S fuel) params options w).
Proof.
  intros Hw Hinternal.
  assert (∃ agent w1,
            request transport (S fuel) params options w
            = internalRequest transport fuel (method (composeOptions options w))
                (requestParams (composeOptions options w) params w) agent
                (actualWarn (composeOptions options w))
                (tokenType (composeOptions options w))
                (tokenName (composeOptions options w))
                (now w + maxRetriesSeconds (composeOptions options w) * 1000)%Q
                (retryAfterMaxlagSeconds (composeOptions options w))
                (retryAfterReadonlySeconds (composeOptions options w)) w1
            ∧ P w1) as (agent & w1 & -> & Hw1); [|by apply Hinternal].
  set (o := composeOptions options w).
  assert (∃ w1, warnMaxRetries options o w = Returned tt w1 ∧ P w1
                ∧ quiet w w1) as (w1 & Hw1 & HP1 & Hq1).
  { destruct (warnMaxRetries_quiet options o w) as (w1 & Hw1 & Hq1).
    exists w1. split; [done|]. split; [|done].
    unfold warnMaxRetries in Hw1. async in Hw1. cbv beta in Hw1.
    destruct (_ && _); simplify_eq; auto. }
  assert (∃ agent w2, fullUserAgent o w1 = Returned agent w2 ∧ P w2
                      ∧ quiet w1 w2) as (agent & w2 & Hw2 & HP2 & Hq2).
  { destruct (fullUserAgent_quiet o w1) as (agent & w2 & Hw2 & Hq2).
    exists agent, w2. split; [done|]. split; [|done].
    unfold fullUserAgent in Hw2.
    destruct (given_userAgent o).
    - unfold mret, Async_ret in Hw2. by simplify_eq.
    - async in Hw2. cbv beta in Hw2.
      destruct (negb (warnedDefaultUserAgent w1)); simplify_eq; auto. }
  exists agent, w2. split; [|done].
  destruct Hq1 as (Hc1 & Hp1 & Ho1 & Hn1).
  destruct Hq2 as (Hc2 & Hp2 & Ho2 & Hn2).
  simpl. async. fold o. unfold effect, read in Hw1. rewrite Hw1. cbv beta.
  rewrite Hw2.
  assert (requestParams o params w2 = requestParams o params w) as ->.
  { unfold requestParams. by rewrite Hp2, Hp1. }
  by rewrite Hn2, Hn1.
Qed.

Lemma getToken_pages_after (request : Params → Options → Async Body)
    (options : Options) :
  (∀ params w, P w → after P (request params options w)) →
  ∀ turns type params continueParams w,
    P w →
    after P (getToken_pages request turns type params options continueParams w).
Proof.
  intros Hreq turns. induction turns as [|turns IH]; intros; [done|].
  simpl. apply after_bind.
  { unfold requestAndContinue_turn. apply after_bind; [by apply Hreq|].
    by intros. }
  intros [response next] w1 _ Hw1.
  destruct (response_token type response) as [token|].
  - by apply P_set.
  - destruct next; [by apply IH|done].
Qed.

(** The arguments with which [internalRequest] may be called. *)
Variable G : string → Params → Prop.

Hypothesis G_request :
  ∀ o params w, G (method o) (requestParams o params w).
Hypothesis P_call :
  ∀ method params userAgent tokenParams call elapsed w,
    G method params →
    (tokenParams = None
     ∨ ∃ tokenName token,
         params !! tokenName = Some PTokenPlaceholder
         ∧ tokenParams = Some {[ tokenName := token_value token ]}) →
    transportCall method (spread params (default ∅ tokenParams)) userAgent
    = Some call →
    P w → P (advance elapsed (record (Transport call) w)).

Lemma engine_after (fuel : nat) :
  (∀ params options w,
     P w → after P (request transport fuel params options w))
  ∧ (∀ method params userAgent warn tokenType tokenName retryUntil maxlag
       readonly w,
       G method params →
       P w →
       after P
         (internalRequest transport fuel method params userAgent warn
            tokenType tokenName retryUntil maxlag readonly w))
  ∧ (∀ type options w,
       P w → after P (getToken transport fuel type options w)).
Proof.
  induction fuel as [|fuel (IHrequest & IHinternal & IHtoken)]; [done|].
  refine (conj _ (conj _ _)).
  - intros params options w Hw. apply request_after; [done|].
    intros agent w1 Hw1. by apply IHinternal.
  - intros method params userAgent warn tokenType tokenName retryUntil maxlag
      readonly w HG Hw. simpl.
    apply after_bind.
    { unfold resolveToken. destruct (decide _); [|done].
      destruct tokenType as [type|]; [|done].
      apply after_bind; [done|]. intros t w1 _ Hw1.
      apply after_bind; [by apply IHtoken|]. by intros. }
    intros tokenParams w1 Htoken Hw1.
    assert (tokenParams = None
            ∨ ∃ tokenName token,
                params !! tokenName = Some PTokenPlaceholder
                ∧ tokenParams = Some {[ tokenName := token_value token ]})
      as Hshape.
    { unfold resolveToken in Htoken.
      destruct (decide _) as [Hph|];
        [|left; unfold mret, Async_ret in Htoken; by simplify_eq].
      destruct tokenType as [type|]; [|done].
      right. exists tokenName. async in Htoken. cbv beta in Htoken.
      destruct (getToken transport fuel type _ w) as [token w'|e w'|];
        try done.
      exists token. split; [done|]. by simplify_eq. }
    apply after_bind.
    { unfold send. destruct (transportCall _ _ _) as [call|] eqn:Hcall; [|done].
      unfold await_transport.
      destruct (transport _ _); simpl; by eapply P_call. }
    intros response w2 _ Hw2.
    apply evaluate_after; auto.
  - intros type options w Hw. simpl.
    apply after_bind; [done|]. intros cached w1 _ Hw1.
    apply after_bind; [|by intros].
    destruct cached; [done|].
    apply getToken_pages_after; [|done]. intros. by apply IHrequest.
Qed.

(** The same for the requests sent with GET, once the calls of
    [internalGet] keep the property. *)
Hypothesis P_get :
  ∀ params userAgent elapsed w,
    P w →
    P (advance elapsed (record (Transport (internalGet params userAgent)) w)).

Lemma get_engine_after (fuel : nat) :
  (∀ params options w,
     method (composeOptions options w) = "GET" →
     P w → after P (request transport fuel params options w))
  ∧ (∀ params userAgent warn tokenType tokenName retryUntil maxlag readonly w,
       P w →
       after P
         (internalRequest transport fuel "GET" params userAgent warn
            tokenType tokenName retryUntil maxlag readonly w))
  ∧ (∀ type options w,
       P w → after P (getToken transport fuel type options w)).
Proof.
  induction fuel as [|fuel (IHrequest & IHinternal & IHtoken)]; [done|].
  refine (conj _ (conj _ _)).
  - intros params options w Hmethod Hw. apply request_after; [done|].
    intros agent w1 Hw1. rewrite Hmethod. by apply IHinternal.
  - intros params userAgent warn tokenType tokenName retryUntil maxlag
      readonly w Hw. simpl.
    apply after_bind.
    { unfold resolveToken. destruct (decide _); [|done].
      destruct tokenType as [type|]; [|done].
      apply after_bind; [done|]. intros t w1 _ Hw1.
      apply after_bind; [by apply IHtoken|]. by intros. }
    intros tokenParams w1 _ Hw1.
    apply after_bind.
    { unfold send, transportCall. simpl. unfold await_transport.
      destruct (transport _ _); simpl; by apply P_get. }
    intros response w2 _ Hw2.
    apply evaluate_after; auto.
  - intros type options w Hw. simpl.
    apply after_bind; [done|]. intros cached w1 _ Hw1.
    apply after_bind; [|by intros].
    destruct cached; [done|].
    apply getToken_pages_after; [|done]. intros. by apply IHrequest.
Qed.

End Invariant.

Lemma calls_since_refl (w0 : World) good : calls_since w0 good w0.
Proof. exists []. by rewrite app_nil_r. Qed.

Lemma calls_since_quiet (w0 : World) good (w w' : World) :
  transport_calls (trace w') = transport_calls (trace w) →
  calls_since w0 good w → calls_since w0 good w'.
Proof. intros Heq (new & Hnew & Hgood). exists new. by rewrite Heq. Qed.

Lemma calls_since_call (w0 : World) (good : TransportCall → Prop)
    (call : TransportCall) (elapsed : Q) (w : World) :
  good call →
  calls_since w0 good w →
  calls_since w0 good (advance elapsed (record (Transport call) w)).
Proof.
  intros Hcall (new & Hnew & Hgood). exists (new ++ [call])%list.
  split.
  - simpl. unfold transport_calls in *. rewrite omap_app, Hnew. simpl.
    by rewrite app_assoc.
  - apply Forall_app. split; [done|]. by apply Forall_singleton.
Qed.

Lemma calls_since_event (w0 : World) good (e : Event) (w : World) :
  is_transport e = false →
  calls_since w0 good w → calls_since w0 good (record e w).
Proof.
  intros He. apply calls_since_quiet. simpl. unfold transport_calls.
  rewrite omap_app. destruct e; simpl in *; try done; by rewrite app_nil_r.
Qed.

Lemma calls_since_call_warn (w0 : World) good handler e (w : World) :
  calls_since w0 good w → calls_since w0 good (call_warn handler e w).
Proof.
  apply calls_since_quiet.
  by destruct (quiet_call_warn handler e w w) as (H & _); [|].
Qed.

(** X11: every transport call that [request] (and with it [getToken] and
    the requests it makes) hands out carries [format=json], whatever the
    caller's parameters, the default parameters and the options are, also
    when they name another format. *)
Theorem format_is_json transport (fuel : nat) (params : Params)
    (options : Options) (w : World) :
  after
    (calls_since w (fun call => sent_params call !! "format" = Some (PStr "json")))
    (request transport fuel params options w).
Proof.
  apply (engine_after transport
           (calls_since w
              (fun call => sent_params call !! "format" = Some (PStr "json")))
           ltac:(intros; by apply calls_since_event)
           ltac:(intros; by apply calls_since_call_warn)
           ltac:(intros; by apply (calls_since_quiet w _ w0))
           ltac:(intros; by apply calls_since_event)
           ltac:(intros; by apply calls_since_event)
           (fun method params => params !! "format" = Some (PStr "json"))).
  - intros o params' w'. unfold requestParams.
    rewrite transformParams_lookup, lookup_insert_eq. done.
  - intros method params' agent tokenParams call elapsed w' Hformat Hshape
      Hcall Hw'.
    apply calls_since_call; [|done].
    apply transportCall_sent_params in Hcall as [-> _].
    unfold spread.
    destruct Hshape as [-> | (tokenName & token & Hph & ->)]; simpl.
    + by rewrite lookup_union_r.
    + rewrite lookup_union_r; [done|].
      apply lookup_singleton_ne. intros ->. congruence.
  - apply calls_since_refl.
Qed.

(** X12: in the parameters that [request] sends, a parameter of the call
    wins over a default parameter of the same name, so a call value of
    [false], [null] or [undefined] removes the default parameter; a default
    parameter that the call does not name (and that is not the token
    parameter) is sent as it is normalized. *)
Theorem requestParams_precedence (o : RequestOptions) (params : Params)
    (w : World) (key : string) (Hkey : key ≠ "format") :
  (∀ value, params !! key = Some value →
     requestParams o params w !! key
     = if decide (transformParamValue value = PUndefined) then None
       else Some (transformParamValue value))
  ∧ (params !! key = None →
     tokenType o = None ∨ key ≠ tokenName o →
     requestParams o params w !! key
     = transformParams (defaultParams w) !! key).
Proof.
  unfold requestParams. rewrite !transformParams_lookup.
  rewrite lookup_insert_ne by done. unfold spread.
  split.
  - intros value Hvalue. by rewrite (lookup_union_Some_l _ _ _ _ Hvalue).
  - intros Hnone Htoken. rewrite lookup_union_r by done.
    rewrite lookup_union_r; [done|].
    unfold tokenParams. destruct Htoken as [-> | Hne]; [done|].
    destruct (tokenType o); [|done]. by apply lookup_singleton_ne.
Qed.

Lemma requestParams_precedence_witness :
  requestParams DEFAULT_OPTIONS {[ "assert" := PNull ]}
    (Session "en.wikipedia.org" {[ "assert" := PStr "user" ]} no_options 0)
    !! "assert" = None.
Proof.
  exact (proj1 (requestParams_precedence DEFAULT_OPTIONS {[ "assert" := PNull ]}
                  (Session "en.wikipedia.org" {[ "assert" := PStr "user" ]}
                     no_options 0)
                  "assert" ltac:(discriminate)) PNull eq_refl).
Defined.

(** X13: a request whose composed token type is [null] neither writes nor
    clears the token cache, however it ends. *)
Theorem request_without_token_keeps_cache transport (fuel : nat)
    (params : Params) (options : Options) (w : World)
    (Htype : tokenType (composeOptions options w) = None) :
  after (same_cache w) (request transport fuel params options w).
Proof.
  destruct fuel as [|fuel]; [done|].
  destruct (request_dispatch transport fuel params options w)
    as (agent & w1 & -> & _ & Hcache & _).
  rewrite Htype. by apply internalRequest_tokenless.
Qed.

Lemma request_without_token_keeps_cache_witness :
  after (same_cache session_with_token)
    (request (scripted (responses [body_of_errors [api_error "badtoken"]]))
       3 {[ "action" := PStr "query" ]} no_options session_with_token).
Proof.
  apply (request_without_token_keeps_cache
           (scripted (responses [body_of_errors [api_error "badtoken"]]))
           3 {[ "action" := PStr "query" ]} no_options session_with_token).
  reflexivity.
Defined.

Lemma tokenRequestOptions_composed (options : Options) (w : World) :
  method (composeOptions (tokenRequestOptions options) w) = "GET"
  ∧ tokenType (composeOptions (tokenRequestOptions options) w) = None
  ∧ dropTruncatedResultWarning (composeOptions (tokenRequestOptions options) w)
    = true.
Proof. done. Qed.

(** X14: the requests that [getToken] makes are GET requests, also when
    the options of the caller or of the session say POST: every transport
    call made by [getToken] is a call of [internalGet]. The same holds for
    a [request] whose composed method is GET, with the token requests
    that it causes. *)
Theorem only_get_calls transport (fuel : nat) (w : World) :
  (∀ type options,
     after (calls_since w is_get) (getToken transport fuel type options w))
  ∧ (∀ params options,
       method (composeOptions options w) = "GET" →
       after (calls_since w is_get)
         (request transport fuel params options w)).
Proof.
  destruct (get_engine_after transport (calls_since w is_get)) with (fuel := fuel)
    as (Hrequest & _ & Htoken).
  - intros. unfold setTimeout. by apply calls_since_event.
  - intros. by apply calls_since_call_warn.
  - done.
  - intros. by apply calls_since_event.
  - intros. by apply calls_since_event.
  - intros. by apply calls_since_call.
  - split.
    + intros. apply Htoken, calls_since_refl.
    + intros. apply Hrequest; [done|]. apply calls_since_refl.
Qed.



(** A method that the engine does not know: the token is resolved and
    the call fails. *)
Lemma internalRequest_rejects_method transport (method : string)
    (fuel : nat) sent agent warn tokenType tokenName retryUntil maxlag
    readonly (w : World) :
  method ≠ "GET" → method ≠ "POST" →
  internalRequest transport (S fuel) method sent agent warn tokenType
    tokenName retryUntil maxlag readonly w
  = match resolveToken (getToken transport fuel) sent agent warn tokenType
            tokenName retryUntil maxlag readonly w with
    | Returned _ w1 => Thrown (UnknownRequestMethod method) w1
    | Thrown e w1 => Thrown e w1
    | OutOfFuel => OutOfFuel
    end.
Proof.
  intros Hget Hpost.
  assert (∀ params, transportCall method params agent = None) as Hcall.
  { intros params. unfold transportCall.
    destruct (String.eqb_spec method "GET"); [done|].
    by destruct (String.eqb_spec method "POST"). }
  simpl. async.
  destruct (resolveToken _ _ _ _ _ _ _ _ _ w) as [tp w1|e w1|]; try done.
  unfold send. by rewrite Hcall.
Qed.

Lemma resolveToken_only_gets transport (fuel : nat) sent agent warn tokenType
    tokenName retryUntil maxlag readonly (w : World) :
  after (calls_since w is_get)
    (resolveToken (getToken transport fuel) sent agent warn tokenType
       tokenName retryUntil maxlag readonly w).
Proof.
  unfold resolveToken. destruct (decide _); [|apply calls_since_refl].
  destruct tokenType as [type|]; [|apply calls_since_refl].
  async.
  destruct (get_engine_after transport (calls_since w is_get))
    with (fuel := fuel) as (_ & _ & Htoken).
  - intros. unfold setTimeout. by apply calls_since_event.
  - intros. by apply calls_since_call_warn.
  - done.
  - intros. by apply calls_since_event.
  - intros. by apply calls_since_event.
  - intros. by apply calls_since_call.
  - specialize (Htoken type
      (mkOptions None None None None (Some ((retryUntil - now w) / 1000)%Q)
         (Some maxlag) (Some readonly) (Some agent) (Some warn) None)
      w (calls_since_refl _ _)).
    by destruct (getToken _ _ _ _ w).
Qed.

(** X16: a method other than the strings GET and POST (the comparison is
    exact, so also a lower-case get) makes the request fail: it never
    returns a response, and no request reaches the transport with that
    method. Without a token type nothing is sent at all and the error is
    the unknown-method error; with one, the GET requests for the token are
    still made before the method is looked at. *)
Theorem unknown_method transport (fuel : nat) (params : Params)
    (options : Options) (w : World)
    (Hget : method (composeOptions options w) ≠ "GET")
    (Hpost : method (composeOptions options w) ≠ "POST") :
  (∀ response w', request transport fuel params options w
                  ≠ Returned response w')
  ∧ after (calls_since w is_get) (request transport fuel params options w)
  ∧ (tokenType (composeOptions options w) = None →
     plain params → plain (defaultParams w) →
     ∃ w',
       request transport (S (S fuel)) params options w
       = Thrown (UnknownRequestMethod (method (composeOptions options w))) w'
       ∧ transport_calls (trace w') = transport_calls (trace w)).
Proof.
  refine (conj _ (conj _ _)).
  - intros response w' Hrun. destruct fuel as [|fuel]; [done|].
    destruct (request_dispatch transport fuel params options w)
      as (agent & w1 & Hdispatch & _).
    rewrite Hdispatch in Hrun. destruct fuel as [|fuel]; [done|].
    rewrite internalRequest_rejects_method in Hrun by done.
    by destruct (resolveToken _ _ _ _ _ _ _ _ _ w1).
  - destruct fuel as [|fuel]; [done|].
    destruct (request_dispatch transport fuel params options w)
      as (agent & w1 & -> & (Hquiet & _) & _).
    destruct fuel as [|fuel]; [done|].
    rewrite internalRequest_rejects_method by done.
    match goal with
    | |- context [resolveToken _ ?p ?a ?wn ?tt ?tn ?r ?ml ?ro w1] =>
        pose proof (resolveToken_only_gets transport fuel p a wn tt tn r ml ro
                      w1) as Hresolve
    end.
    destruct (resolveToken _ _ _ _ _ _ _ _ _ w1) as [tp w3|e3 w3|];
      [| |done]; simpl in *;
      destruct Hresolve as (new & Hnew & Hgood);
      exists new; by rewrite Hnew, Hquiet.
  - intros Htype Hparams Hdefaults.
    destruct (request_dispatch transport (S fuel) params options w)
      as (agent & w1 & -> & (Hquiet & _) & _).
    exists w1. split; [|done].
    rewrite internalRequest_rejects_method by done.
    unfold resolveToken. rewrite decide_False; [done|].
    by apply requestParams_plain.
Qed.

Lemma unknown_method_witness :
  ∃ w',
    request (scripted []) 2 {[ "action" := PStr "query" ]} lower_case_get
      fresh_session
    = Thrown (UnknownRequestMethod "get") w'
    ∧ transport_calls (trace w') = transport_calls (trace fresh_session).
Proof.
  apply (proj2 (proj2 (unknown_method (scripted []) 0
                         {[ "action" := PStr "query" ]} lower_case_get
                         fresh_session ltac:(discriminate)
                         ltac:(discriminate)))).
  - reflexivity.
  - intros key. destruct (decide (key = "action")) as [->|Hne].
    + by rewrite lookup_singleton_eq.
    + by rewrite lookup_singleton_ne.
  - intros key. simpl. by rewrite lookup_empty.
Defined.

(** What a request without a token type does after its warnings: it sends
    its parameters once. *)
Lemma request_sends transport (fuel : nat) (params : Params)
    (options : Options) (w : World) :
  let o := composeOptions options w in
  tokenType o = None → plain params → plain (defaultParams w) →
  method o = "GET" ∨ method o = "POST" →
  ∃ agent w1 call,
    quiet w w1
    ∧ transportCall (method o) (requestParams o params w) agent = Some call
    ∧ sent_params call = requestParams o params w
    ∧ request transport (S (S fuel)) params options w
      = match transport (trace w1) call with
        | Responded elapsed response =>
            evaluate (actualWarn o) (now w + maxRetriesSeconds o * 1000)%Q
              (retryAfterMaxlagSeconds o) (retryAfterReadonlySeconds o) false
              (internalRequest transport fuel (method o)
                 (requestParams o params w) agent (actualWarn o) None
                 (tokenName o) (now w + maxRetriesSeconds o * 1000)%Q
                 (retryAfterMaxlagSeconds o) (retryAfterReadonlySeconds o))
              response (advance elapsed (record (Transport call) w1))
        | Rejected elapsed message =>
            Thrown (TransportError message)
              (advance elapsed (record (Transport call) w1))
        end.
Proof.
  intros o Htype Hparams Hdefaults Hmethod.
  destruct (request_dispatch transport (S fuel) params options w)
    as (agent & w1 & -> & Hquiet & _).
  fold o. rewrite Htype.
  destruct (sent_params_transportCall (method o) (requestParams o params w)
              agent Hmethod) as (call & Hcall & Hsent).
  exists agent, w1, call. split; [done|]. split; [done|]. split; [done|].
  assert (spread (requestParams o params w) ∅ = requestParams o params w)
    as Hspread by (unfold spread; apply (left_id ∅ (∪))).
  rewrite internalRequest_step. async. unfold resolveToken.
  rewrite decide_False by by apply requestParams_plain.
  unfold mret, Async_ret. cbv beta iota. cbn [default]. unfold send.
  rewrite Hspread, Hcall. unfold await_transport.
  by destruct (transport (trace w1) call).
Qed.

(** X17: a request whose transport call is rejected fails with the
    transport's error. It is not retried, whatever the retry budget is:
    exactly one call reaches the transport, with the parameters of the
    request. *)
Theorem rejection_is_fatal transport (fuel : nat) (params : Params)
    (options : Options) (w : World) (elapsed : Q) (message : string)
    (Htype : tokenType (composeOptions options w) = None)
    (Hparams : plain params) (Hdefaults : plain (defaultParams w))
    (Hmethod : method (composeOptions options w) = "GET"
               ∨ method (composeOptions options w) = "POST")
    (Hrejected : ∀ events call,
       transport_calls events = transport_calls (trace w) →
       transport events call = Rejected elapsed message) :
  ∃ call w',
    request transport (S (S fuel)) params options w
    = Thrown (TransportError message) w'
    ∧ transport_calls (trace w') = (transport_calls (trace w) ++ [call])%list
    ∧ sent_params call = requestParams (composeOptions options w) params w
    ∧ now w' = (now w + elapsed)%Q.
Proof.
  destruct (request_sends transport fuel params options w Htype Hparams
              Hdefaults Hmethod)
    as (agent & w1 & call & (Hcalls & _ & _ & Hnow) & _ & Hsent & ->).
  rewrite Hrejected by done.
  eexists call, _. split; [done|]. split; [|split; [done|]].
  - simpl. unfold transport_calls in *. rewrite omap_app. simpl.
    by rewrite Hcalls.
  - simpl. by rewrite Hnow.
Qed.

Lemma rejection_is_fatal_witness :
  ∃ call w',
    request (scripted [Rejected 7 "connection reset"]) 2
      {[ "action" := PStr "query" ]} no_options fresh_session
    = Thrown (TransportError "connection reset") w'
    ∧ transport_calls (trace w')
      = (transport_calls (trace fresh_session) ++ [call])%list
    ∧ sent_params call
      = requestParams (composeOptions no_options fresh_session)
          {[ "action" := PStr "query" ]} fresh_session
    ∧ now w' = (now fresh_session + 7)%Q.
Proof.
  apply (rejection_is_fatal (scripted [Rejected 7 "connection reset"]) 0
           {[ "action" := PStr "query" ]} no_options fresh_session 7
           "connection reset").
  - reflexivity.
  - intros key. destruct (decide (key = "action")) as [->|Hne].
    + by rewrite lookup_singleton_eq.
    + by rewrite lookup_singleton_ne.
  - intros key. simpl. by rewrite lookup_empty.
  - by left.
  - intros events call Hevents. unfold scripted. by rewrite Hevents.
Defined.

(** Clock arithmetic: once time has passed, a budget of zero or less
    leaves no room for a delay that is not negative. *)
Lemma past_deadline (t elapsed budget seconds : Q) :
  (0 < elapsed)%Q → (budget <= 0)%Q → (0 <= seconds)%Q →
  ¬ (t + elapsed + 1000 * seconds <= t + budget * 1000)%Q.
Proof.
  intros Helapsed Hbudget Hseconds.
  assert (budget * 1000 <= 0)%Q as Hb.
  { rewrite <- (Qmult_0_l 1000). by apply Qmult_le_compat_r. }
  assert (0 <= 1000 * seconds)%Q as Hs by by apply Qmult_le_0_compat.
  apply Qlt_not_le.
  apply Qle_lt_trans with (t + 0)%Q; [by apply Qplus_le_r|].
  apply Qlt_le_trans with (t + elapsed + 0)%Q.
  - rewrite <- Qplus_assoc. apply Qplus_lt_r. by rewrite Qplus_0_r.
  - by apply Qplus_le_r.
Qed.

(** X18: with a retry budget of zero seconds or less, a request without a
    token type is never retried, when the retry delays of the options are
    not negative, the transport takes time to answer and a [retry-after]
    header does not name a negative delay: the request ends, and at most
    one call reaches the transport. *)
Theorem no_budget_no_retry transport (fuel : nat) (params : Params)
    (options : Options) (w : World)
    (Htype : tokenType (composeOptions options w) = None)
    (Hparams : plain params) (Hdefaults : plain (defaultParams w))
    (Hbudget : (maxRetriesSeconds (composeOptions options w) <= 0)%Q)
    (Hmaxlag : (0 <= retryAfterMaxlagSeconds (composeOptions options w))%Q)
    (Hreadonly : (0 <= retryAfterReadonlySeconds (composeOptions options w))%Q)
    (Htransport : ∀ events call elapsed response,
       transport events call = Responded elapsed response →
       (0 < elapsed)%Q
       ∧ ∀ value seconds,
           headers response !! "retry-after" = Some value →
           parseInt value = Some seconds → (0 <= seconds)%Z) :
  request transport (S (S fuel)) params options w ≠ OutOfFuel
  ∧ after
      (fun w' =>
         (length (transport_calls (trace w'))
          ≤ S (length (transport_calls (trace w))))%nat)
      (request transport (S (S fuel)) params options w).
Proof.
  set (o := composeOptions options w) in *.
  destruct (String.eqb_spec (method o) "GET") as [Hget|Hget];
    [|destruct (String.eqb_spec (method o) "POST") as [Hpost|Hpost]].
  3: { destruct (request_dispatch transport (S fuel) params options w)
         as (agent & w1 & -> & (Hquiet & _) & _).
       rewrite internalRequest_rejects_method by done.
       unfold resolveToken. rewrite decide_False.
       - simpl. split; [done|]. rewrite Hquiet. lia.
       - apply requestParams_plain; [|done..]. done. }
  all: destruct (request_sends transport fuel params options w Htype Hparams
                   Hdefaults) as (agent & w1 & call & (Hcalls & _ & _ & Hnow)
                                  & _ & _ & ->); [by auto|].
  all: assert (length (transport_calls
                         (trace (record (Transport call) w1)))
               = S (length (transport_calls (trace w)))) as Hlength
         by (simpl; unfold transport_calls in *; rewrite omap_app, Hcalls,
               length_app; simpl; lia).
  all: destruct (transport (trace w1) call) as [elapsed response|elapsed message]
         eqn:Hanswer; [|simpl; split; [done|]; simpl in Hlength; lia].
  all: destruct (Htransport _ _ _ _ Hanswer) as [Helapsed Hheader].
  all: fold o.
  all: set (w2 := advance elapsed (record (Transport call) w1)).
  all: assert (∀ seconds, (0 <= seconds)%Q →
                 ¬ (now w2 + 1000 * seconds
                    <= now w + maxRetriesSeconds o * 1000)%Q) as Hlate
         by (intros seconds Hseconds; simpl; rewrite Hnow;
             by apply past_deadline).
  all: assert (no_timed_retry (now w + maxRetriesSeconds o * 1000)
                 (retryAfterMaxlagSeconds o) (retryAfterReadonlySeconds o)
                 response w2) as Hno
         by (unfold no_timed_retry;
             destruct (headers response !! "retry-after") as [value|] eqn:Hh;
             [intros seconds Hparse; apply Hlate;
              change 0%Q with (inject_Z 0); rewrite <- Zle_Qle; eauto
             |split; intros _; by apply Hlate]).
  all: destruct (Z.eq_dec (status response) 200) as [Hstatus|Hstatus];
         [rewrite evaluate_no_timed_retry by done; simpl;
          destruct (conclude_outcome (actualWarn o) (body response) w2)
            as [[_ ->]|[[_ ->]|[_ [w3 Hw3]]]];
          [split; [done|]; simpl in *; lia
          |split; [done|]; simpl in *; lia
          |rewrite Hw3; split; [done|]; simpl]
         |unfold evaluate; apply Z.eqb_neq in Hstatus; rewrite Hstatus;
          simpl; split; [done|]; simpl in *; lia].
  all: unfold conclude in Hw3;
       destruct (0 <? length (responseErrors (body response)))%nat; [done|];
       destruct (responseWarnings (body response)) as [|ws]; [done|];
       async in Hw3;
       destruct (0 <? length ws)%nat; simplify_eq; [|simpl in *; lia];
       destruct (quiet_call_warn (actualWarn o) (ApiWarnings ws) w2 w2)
         as (Hq & _); [done|]; rewrite Hq; simpl in *; lia.
Qed.

Lemma no_budget_no_retry_witness :
  request always_lagged 2 {[ "action" := PStr "query" ]} (budget_options 0)
    fresh_session ≠ OutOfFuel
  ∧ after
      (fun w' =>
         (length (transport_calls (trace w'))
          ≤ S (length (transport_calls (trace fresh_session))))%nat)
      (request always_lagged 2 {[ "action" := PStr "query" ]}
         (budget_options 0) fresh_session).
Proof.
  apply (no_budget_no_retry always_lagged 0 {[ "action" := PStr "query" ]}
           (budget_options 0) fresh_session).
  - reflexivity.
  - intros key. destruct (decide (key = "action")) as [->|Hne].
    + by rewrite lookup_singleton_eq.
    + by rewrite lookup_singleton_ne.
  - intros key. simpl. by rewrite lookup_empty.
  - by vm_compute.
  - by vm_compute.
  - by vm_compute.
  - intros events call elapsed response Hanswer.
    unfold always_lagged in Hanswer. simplify_eq. split; [done|].
    intros value seconds Hheader. simpl in Hheader.
    by rewrite lookup_empty in Hheader.
Defined.

(** ** [requestAndContinueReducingBatch] *)

Lemma reducingBatch_from_reduces {A} transport (fuel : nat) (params : Params)
    (options : Options) (reducer : A → Body → A) (initial : A) (turns : nat) :
  ∀ accumulator continueParams w,
    reducingBatch_from (request transport fuel) turns params options reducer
      initial accumulator continueParams w
    = match requestAndContinue_from transport fuel turns params options
              continueParams w with
      | Returned responses w' =>
          Returned (reduce_batches reducer initial accumulator responses) w'
      | Thrown e w' => Thrown e w'
      | OutOfFuel => OutOfFuel
      end.
Proof.
  induction turns as [|turns IH]; intros accumulator continueParams w; [done|].
  simpl. unfold requestAndContinue_turn. async.
  destruct (request transport fuel _ options w) as [response w1|e w1|];
    [|done..].
  destruct (continue response) as [continueParams'|]; simpl.
  - rewrite IH.
    destruct (requestAndContinue_from transport fuel turns params options
                continueParams' w1) as [responses w2|e w2|]; [|done..].
    simpl. by destruct (responseBoolean _).
  - by destruct (responseBoolean _).
Qed.

Lemma reduce_batches_incomplete {A} (reducer : A → Body → A) (initial : A)
    (batch : list Body) :
  Forall (fun response => completes_batch response = false) batch →
  ∀ accumulator,
    reduce_batches reducer initial accumulator batch = []
    ∧ ∀ last rest,
        completes_batch last = true →
        reduce_batches reducer initial accumulator (batch ++ last :: rest)
        = fold_left reducer (batch ++ [last]) accumulator
          :: reduce_batches reducer initial initial rest.
Proof.
  unfold completes_batch.
  induction 1 as [|response batch Hresponse _ IH]; intros accumulator.
  - split; [done|]. intros last rest Hlast. simpl. by rewrite Hlast.
  - simpl. rewrite Hresponse.
    destruct (IH (reducer accumulator response)) as [Hnil Hcons]. by split.
Qed.

Lemma reduce_batches_length {A} (reducer : A → Body → A) (initial : A)
    (responses : list Body) :
  ∀ accumulator,
    length (reduce_batches reducer initial accumulator responses)
    = length (List.filter completes_batch responses).
Proof.
  unfold completes_batch.
  induction responses as [|response responses IH]; intros accumulator;
    [done|].
  simpl. destruct (responseBoolean _); simpl; by rewrite IH.
Qed.

(** X19: [requestAndContinueReducingBatch] makes the requests of
    [requestAndContinue], with the [dropTruncatedResultWarning] option set
    unless the caller gives it (the session's default for that option is
    not looked at), and fails where [requestAndContinue] fails. The number
    of values it yields is the number of responses with [batchcomplete]. *)
Theorem requestAndContinueReducingBatch_requests {A} transport (fuel : nat)
    (params : Params) (options : Options) (reducer : A → Body → A)
    (initial : A) (w : World) :
  match requestAndContinue transport fuel params (batchOptions options) w with
  | Returned responses w' =>
      ∃ values,
        requestAndContinueReducingBatch transport fuel params options reducer
          initial w = Returned values w'
        ∧ length values = length (List.filter completes_batch responses)
  | Thrown e w' =>
      requestAndContinueReducingBatch transport fuel params options reducer
        initial w = Thrown e w'
  | OutOfFuel =>
      requestAndContinueReducingBatch transport fuel params options reducer
        initial w = OutOfFuel
  end
  ∧ ∀ w0,
      dropTruncatedResultWarning (composeOptions (batchOptions options) w0)
      = default true (o_dropTruncatedResultWarning options).
Proof.
  split.
  - unfold requestAndContinueReducingBatch, requestAndContinue.
    rewrite reducingBatch_from_reduces.
    destruct (requestAndContinue_from _ _ _ _ _ _ w) as [responses w'|e w'|];
      [|done..].
    eexists. split; [done|]. apply reduce_batches_length.
  - intros w0. unfold composeOptions, batchOptions. simpl.
    by destruct (o_dropTruncatedResultWarning options).
Qed.

(** X20: the values of [requestAndContinueReducingBatch]. When the
    responses of the requests begin with a batch (responses without
    [batchcomplete], then one with it), the first value is the reducer
    folded over that batch, starting from the initial value; a following
    run of responses that never completes a batch yields nothing. *)
Theorem requestAndContinueReducingBatch_first {A} transport (fuel : nat)
    (params : Params) (options : Options) (reducer : A → Body → A)
    (initial : A) (w w' : World) (batch : list Body) (last : Body)
    (rest : list Body)
    (Hrun : requestAndContinue transport fuel params (batchOptions options) w
            = Returned (batch ++ last :: rest)%list w')
    (Hbatch : Forall (fun response => completes_batch response = false) batch)
    (Hlast : completes_batch last = true) :
  ∃ values,
    requestAndContinueReducingBatch transport fuel params options reducer
      initial w
    = Returned (fold_left reducer (batch ++ [last]) initial :: values) w'
    ∧ length values = length (List.filter completes_batch rest)
    ∧ (Forall (fun response => completes_batch response = false) rest →
       values = []).
Proof.
  unfold requestAndContinueReducingBatch, requestAndContinue in *.
  rewrite reducingBatch_from_reduces, Hrun.
  destruct (reduce_batches_incomplete reducer initial batch Hbatch initial)
    as [_ Hcons].
  rewrite Hcons by done.
  eexists. split; [done|]. split; [apply reduce_batches_length|].
  intros Hrest. by apply reduce_batches_incomplete.
Qed.

Lemma requestAndContinueReducingBatch_first_witness :
  ∃ w' values,
    requestAndContinueReducingBatch
      (scripted
         (responses [continue_body "rvcontinue" "1";
                     batch_end_body "gapcontinue" "B";
                     empty_body]))
      4 {[ "action" := PStr "query" ]} no_options count_response 0%nat
      fresh_session
    = Returned (2%nat :: values) w'
    ∧ values = [].
Proof.
  eexists.
  eassert (requestAndContinue
             (scripted
                (responses [continue_body "rvcontinue" "1";
                            batch_end_body "gapcontinue" "B";
                            empty_body]))
             4 {[ "action" := PStr "query" ]} (batchOptions no_options)
             fresh_session
           = Returned
               ([continue_body "rvcontinue" "1"]
                ++ batch_end_body "gapcontinue" "B" :: [empty_body])%list _)
    as Hrun by (vm_compute; reflexivity).
  destruct (requestAndContinueReducingBatch_first _ _ _ _ count_response
              0%nat _ _ _ _ _ Hrun)
    as (values & Hvalues & _ & Hnone).
  - by repeat constructor.
  - reflexivity.
  - exists values. split; [exact Hvalues|]. apply Hnone. by repeat constructor.
Defined.

(** ** What a request can end with *)

Lemma ends_well_bind {A B} (okA : A → Prop) (okB : B → Prop) (m : Async A)
    (k : A → Async B) (w : World) :
  ends_well okA (m w) →
  (∀ a w', okA a → ends_well okB (k a w')) →
  ends_well okB ((m ≫= k) w).
Proof.
  intros Hm Hk. async. destruct (m w) as [a w'|e w'|]; simpl in *; auto.
Qed.

Lemma responseErrors_tagged_body (response : Body) :
  responseErrors (tagged_body response) = responseErrors response.
Proof.
  unfold tagged_body. by destruct (warnings response) as [[]|].
Qed.

Lemma conclude_ends_well (warn : WarnHandler) (response : Body) (w : World) :
  ends_well error_free (conclude warn response w).
Proof.
  destruct (conclude_outcome warn response w)
    as [[Herrors ->]|[[_ ->]|[Herrors [w' ->]]]]; simpl; [done..|].
  unfold error_free. by rewrite responseErrors_tagged_body.
Qed.

Lemma evaluate_ends_well (warn : WarnHandler)
    (retryUntil maxlag readonly : Q) (usedToken : bool) (again : Async Body)
    (response : Response) (w : World) :
  (∀ w0, ends_well error_free (again w0)) →
  ends_well error_free
    (evaluate warn retryUntil maxlag readonly usedToken again response w).
Proof.
  intros Hagain.
  destruct (evaluate_cases warn retryUntil maxlag readonly usedToken again
              response w) as [-> | [[millis ->] | [-> | [Hused [-> | ->]]]]];
    auto using conclude_ends_well. done.
Qed.

Lemma engine_ends_well transport (fuel : nat) :
  (∀ params options w,
     ends_well error_free (request transport fuel params options w))
  ∧ (∀ method params userAgent warn tokenType tokenName retryUntil maxlag
       readonly w,
       ends_well error_free
         (internalRequest transport fuel method params userAgent warn
            tokenType tokenName retryUntil maxlag readonly w))
  ∧ (∀ type options w,
       ends_well (fun _ => True) (getToken transport fuel type options w)).
Proof.
  induction fuel as [|fuel (IHrequest & IHinternal & IHtoken)]; [done|].
  refine (conj _ (conj _ _)).
  - intros params options w.
    destruct (request_dispatch transport fuel params options w)
      as (agent & w1 & -> & _). apply IHinternal.
  - intros method params userAgent warn tokenType tokenName retryUntil maxlag
      readonly w.
    rewrite internalRequest_step.
    apply (ends_well_bind (fun _ => True)).
    { unfold resolveToken. destruct (decide _); [|done].
      destruct tokenType as [type|]; [|done]. async.
      pose proof (IHtoken type
        (mkOptions None None None None (Some ((retryUntil - now w) / 1000)%Q)
           (Some maxlag) (Some readonly) (Some userAgent) (Some warn) None) w)
        as Htoken.
      by destruct (getToken _ _ _ _ w). }
    intros tokenParams w1 _.
    apply (ends_well_bind (fun _ => True)).
    { unfold send. destruct (transportCall _ _ _); [|done].
      unfold await_transport. by destruct (transport _ _). }
    intros response w2 _. by apply evaluate_ends_well.
  - intros type options w. simpl.
    apply (ends_well_bind (fun _ => True)); [done|]. intros cached w1 _.
    apply (ends_well_bind (fun _ => True)); [|done].
    destruct cached; [done|].
    generalize ({[ "continue" := PUndefined ]} : Params).
    generalize w1. generalize fuel at 2. intros turns.
    induction turns as [|turns IH]; [done|]. intros w2 continueParams.
    simpl. unfold requestAndContinue_turn. async.
    pose proof (IHrequest (spread (tokenRequestParams type) continueParams)
                  (tokenRequestOptions options) w2) as Hrequest.
    destruct (request transport fuel _ _ w2) as [response w3|e w3|];
      [|done..].
    destruct (response_token type response); simpl; [done|].
    destruct (continue response); [apply IH|done].
Qed.

(** X21: the errors of a response are never handed to the caller as a
    result. A response that [request] returns has no errors, however many
    retries and token requests it took; and when [request] throws the
    errors of the API, there is at least one. Every response that
    [requestAndContinue] yields is free of errors too. *)
Theorem returned_responses_have_no_errors transport (fuel : nat)
    (params : Params) (options : Options) (w : World) :
  (∀ response w',
     request transport fuel params options w = Returned response w' →
     responseErrors response = [])
  ∧ (∀ errors w',
       request transport fuel params options w = Thrown (ApiErrors errors) w' →
       errors ≠ [])
  ∧ (∀ responses w',
       requestAndContinue transport fuel params options w
       = Returned responses w' →
       Forall (fun response => responseErrors response = []) responses).
Proof.
  destruct (engine_ends_well transport fuel) as (Hrequest & _).
  refine (conj _ (conj _ _)).
  - intros response w' Hrun. specialize (Hrequest params options w).
    by rewrite Hrun in Hrequest.
  - intros errors w' Hrun. specialize (Hrequest params options w).
    by rewrite Hrun in Hrequest.
  - unfold requestAndContinue.
    generalize ({[ "continue" := PUndefined ]} : Params).
    generalize w. generalize fuel at 2. intros turns.
    induction turns as [|turns IH]; [done|].
    intros w0 continueParams responses w' Hrun.
    simpl in Hrun. unfold requestAndContinue_turn in Hrun. async in Hrun.
    pose proof (Hrequest (spread params continueParams) options w0) as Hfirst.
    destruct (request transport fuel _ _ w0) as [response w1|e w1|];
      [|done..].
    simpl in Hrun. destruct (continue response) as [continueParams'|].
    + destruct (requestAndContinue_from transport fuel turns params options
                  continueParams' w1) as [rest w2|e w2|] eqn:Hrest; [|done..].
      simplify_eq. constructor; [done|]. by eapply IH.
    + simplify_eq. by constructor.
Qed.
